(** * A shallow embedding of the worker's linked-list CRDT (worker/worker.go)

    The development models the document part of the worker: the [Element]
    and [CRDT] records, the insert resolver ([addToCRDT] and its helpers),
    the local insert path ([addRight]), the merge path ([ApplyIncomingOps])
    and the walk used by [getMessage].  Go maps from strings to pointers
    are [gmap string _]; every pointer stored in [Elements] is a fresh
    deep copy, so two keys never alias and a write through a pointer is an
    update of the map at the key the pointer was fetched from.  A nil
    dereference is the outcome [Panic]; a loop that cannot end is [Hang]. *)

From Stdlib Require Import ZArith Lia Ascii.
From Stdlib Require String.
From stdpp Require Import base option list strings gmap fin_maps pretty sorting.

Local Open Scope Z_scope.

(** ** Go primitives: [int], [strconv.Itoa], [strconv.Atoi] *)

Module Go.

Definition MaxInt : Z := 2 ^ 63 - 1.
Definition MinInt : Z := - 2 ^ 63.

(** Two's complement wrap-around of a 64-bit [int]. *)
Definition wrap (z : Z) : Z := (z + 2 ^ 63) mod 2 ^ 64 - 2 ^ 63.

(** [n++] on an [int]. *)
Definition incr (n : Z) : Z := wrap (n + 1).

(** [strconv.Itoa]: the decimal numeral, with a leading minus sign for
    negative numbers. *)
Definition Itoa (n : Z) : string := pretty n.

Definition digitVal (c : ascii) : option Z :=
  let n := Z.of_N (N_of_ascii c) in
  if (48 <=? n) && (n <=? 57) then Some (n - 48) else None.

(** The largest [uint64], and the smallest number whose tenfold is
    beyond it ([maxUint64/10 + 1] in [strconv.ParseUint]). *)
Definition maxUint64 : Z := 18446744073709551615.
Definition cutoff : Z := 1844674407370955162.

(** The digit loop of [strconv.ParseUint] in base 10, with [n] read so
    far.  A byte that is no decimal digit is a syntax error ([None]).
    When the next digit would take the number beyond [uint64] the loop
    returns [maxUint64] with a range error at once: the bytes behind are
    not read. *)
Fixpoint parseUint (s : string) (n : Z) : option Z :=
  match s with
  | EmptyString => Some n
  | String c s' =>
      match digitVal c with
      | None => None
      | Some d =>
          if cutoff <=? n then Some maxUint64
          else
            let n1 := n * 10 + d in
            if maxUint64 <? n1 then Some maxUint64 else parseUint s' n1
      end
  end.

(** [strconv.Atoi] with its error dropped (every call site writes
    [n, _ = strconv.Atoi(s)]).  An optional sign is taken off; an empty
    rest or a syntax error gives 0; otherwise the unsigned value of
    [parseUint], which is [maxUint64] after a range error, is clamped to
    the range of [int] as [strconv.ParseInt] does and negated under a
    minus sign.  (The fast path of [Atoi] for short strings computes
    the same.) *)
Definition Atoi (s : string) : Z :=
  match s with
  | EmptyString => 0
  | String c rest =>
      let neg := bool_decide (c = "-"%char) in
      let body := if bool_decide (c = "-"%char) || bool_decide (c = "+"%char)
                  then rest else s in
      match body with
      | EmptyString => 0
      | _ =>
          match parseUint body 0 with
          | None => 0
          | Some un => if neg then Z.max (- un) MinInt else Z.min un MaxInt
          end
      end
  end.

End Go.

Export Go.

(** ** Outcomes of a call *)

Inductive result (A : Type) : Type :=
| Ok (a : A)
| Panic
| Hang.
Arguments Ok {A} a.
Arguments Panic {A}.
Arguments Hang {A}.

Global Instance result_ret : MRet result := @Ok.
Global Instance result_bind : MBind result := λ A B f m,
  match m with
  | Ok a => f a
  | Panic => Panic
  | Hang => Hang
  end.

(** The [error] values the modelled functions can return. *)
Inductive error : Type :=
| ErrNil
| NoCRDTError (sessionID : string).

(** ** Data model *)

Record Element : Type := mkElement {
  SessionID : string;
  ClientID : string;
  Deleted : bool;
  ID : string;
  PrevID : string;
  NextID : string;
  Text : string
}.

Record CRDT : Type := mkCRDT {
  Elements : gmap string Element;
  CrdtFirstID : string;
  NextOpNumber : Z
}.

(** The fields of [Worker] that the document code reads or writes; the
    network handles are left out. *)
Record Worker : Type := mkWorker {
  workerID : Z;
  crdt : gmap string CRDT;
  localOps : list Element
}.

Global Instance Element_eq_dec : EqDecision Element.
Proof. solve_decision. Defined.

Definition INITIAL_ID : string := "12345".

(** [e.NextID = n] and [e.PrevID = p] on a stored element. *)
Definition setNextID (e : Element) (n : string) : Element :=
  mkElement (SessionID e) (ClientID e) (Deleted e) (ID e) (PrevID e) n (Text e).

Definition setPrevID (e : Element) (p : string) : Element :=
  mkElement (SessionID e) (ClientID e) (Deleted e) (ID e) p (NextID e) (Text e).

Definition setElements (d : CRDT) (els : gmap string Element) : CRDT :=
  mkCRDT els (CrdtFirstID d) (NextOpNumber d).

Definition setFirstID (d : CRDT) (k : string) : CRDT :=
  mkCRDT (Elements d) k (NextOpNumber d).

(** [&CRDT{make(map[string]*Element), "", 1}] of [newSession]. *)
Definition newCRDT : CRDT := mkCRDT ∅ "" 1.

(** ** The insert resolver *)

(** [firstCRDTEntry]: the returned flag and the document afterwards. *)
Definition firstCRDTEntry (opID : string) (d : CRDT) : bool * CRDT :=
  if bool_decide (size (Elements d) ≤ 0)%nat
  then (true, setFirstID d opID)
  else (false, d).

(** [replacingFirstOp]: the flag, the new element (its [NextID] is
    written) and the document.  [firstOp.PrevID = opID] panics when the
    map has no element under [CrdtFirstID]. *)
Definition replacingFirstOp (newElement : Element) (prevID opID : string)
    (d : CRDT) : result (bool * Element * CRDT) :=
  if bool_decide (prevID = INITIAL_ID) then
    match Elements d !! CrdtFirstID d with
    | None => Panic
    | Some firstOp =>
        let newElement' := setNextID newElement (CrdtFirstID d) in
        let els := <[CrdtFirstID d := setPrevID firstOp opID]> (Elements d) in
        Ok (true, newElement', mkCRDT els opID (NextOpNumber d))
    end
  else Ok (false, newElement, d).

(** The [for] loop of [samePlaceInsertCheck].  Each turn evaluates the
    loop condition once; the state is [prevOp] and [nextOpID]. *)
Fixpoint samePlaceLoop (fuel : nat) (els : gmap string Element)
    (newElement : Element) (newOpID : Z) (prevOp : Element) (nextOpID : Z)
    : result string :=
  match fuel with
  | O => Hang
  | S fuel' =>
      if newOpID <=? nextOpID then
        match els !! NextID prevOp with
        | None => Panic
        | Some succ =>
            if bool_decide (ClientID newElement ≠ ClientID succ) then
              match els !! Itoa nextOpID with
              | None => Panic
              | Some prevOp' =>
                  samePlaceLoop fuel' els newElement newOpID prevOp'
                    (Atoi (NextID prevOp'))
              end
            else Ok (ID prevOp)
        end
      else Ok (ID prevOp)
  end.

(** The loop state is an element of the map, so a run that ends makes at
    most [size els] turns; with this bound [Hang] is a run that repeats a
    state. *)
Definition loopBound (els : gmap string Element) : nat := S (size els).

Definition samePlaceInsertCheck (newElement : Element) (prevID opID : string)
    (d : CRDT) : result string :=
  match Elements d !! prevID with
  | None => Panic
  | Some prevOp =>
      if bool_decide (NextID prevOp ≠ "") then
        samePlaceLoop (loopBound (Elements d)) (Elements d) newElement
          (Atoi opID) prevOp (Atoi (NextID prevOp))
      else Ok prevID
  end.

Definition normalInsert (newElement : Element) (prevID opID : string)
    (d : CRDT) : result (Element * CRDT) :=
  newPrevID ← samePlaceInsertCheck newElement prevID opID d;
  match Elements d !! newPrevID with
  | None => Panic
  | Some prevOp =>
      Ok (setNextID newElement (NextID prevOp),
          setElements d (<[newPrevID := setNextID prevOp opID]> (Elements d)))
  end.

(** [addOpAndIncrementCounter]: stores a copy under [opID], appends the
    copy to the worker's [localOps] and advances the counter. *)
Definition addOpAndIncrementCounter (w : Worker) (newElement : Element)
    (opID : string) (d : CRDT) : Worker * CRDT :=
  let deepCopyOp :=
    mkElement (SessionID newElement) (ClientID newElement) (Deleted newElement)
      (ID newElement) (PrevID newElement) (NextID newElement) (Text newElement) in
  (mkWorker (workerID w) (crdt w) (localOps w ++ [deepCopyOp]),
   mkCRDT (<[opID := deepCopyOp]> (Elements d)) (CrdtFirstID d)
     (incr (NextOpNumber d))).

(** [addToCRDT]; its [error] result is always nil and is not returned
    here.  The document is passed by pointer in the source: the caller
    keeps using the returned one. *)
Definition addToCRDT (w : Worker) (newElement : Element) (d : CRDT)
    : result (Worker * CRDT) :=
  let '(isFirst, d1) := firstCRDTEntry (ID newElement) d in
  if isFirst then Ok (addOpAndIncrementCounter w newElement (ID newElement) d1)
  else
    '(isReplace, newElement2, d2) ←
      replacingFirstOp newElement (PrevID newElement) (ID newElement) d1;
    if (isReplace : bool)
    then Ok (addOpAndIncrementCounter w newElement2 (ID newElement2) d2)
    else
      '(newElement3, d3) ←
        normalInsert newElement2 (PrevID newElement2) (ID newElement2) d2;
      Ok (addOpAndIncrementCounter w newElement3 (ID newElement3) d3).

(** ** Local inserts and merge *)

Definition prevIDExists (w : Worker) (prevID sessionID : string) : bool :=
  match crdt w !! sessionID with
  | Some d =>
      bool_decide (is_Some (Elements d !! prevID)) || bool_decide (prevID = INITIAL_ID)
  | None => false
  end.

(** The identifier minted by [addRight]. *)
Definition mintOpID (nextOpNumber workerID : Z) : string :=
  Itoa nextOpNumber +:+ Itoa workerID.

(** The document behind a [*CRDT] is the one stored in [w.crdt] under the
    session it was fetched from. *)
Definition storeCRDT (w : Worker) (sessionID : string) (d : CRDT) : Worker :=
  mkWorker (workerID w) (<[sessionID := d]> (crdt w)) (localOps w).

Definition addRight (w : Worker) (prevID content sessionID : string)
    : result (Worker * error) :=
  if negb (prevIDExists w prevID sessionID) then Ok (w, ErrNil)
  else
    match crdt w !! sessionID with
    | None => Panic
    | Some d =>
        let opID := mintOpID (NextOpNumber d) (workerID w) in
        let newElement :=
          mkElement sessionID (Itoa (workerID w)) false opID prevID "" content in
        '(w', d') ← addToCRDT w newElement d;
        Ok (storeCRDT w' sessionID d', ErrNil)
    end.

(** The body of the [range] loop of [ApplyIncomingOps], one operation. *)
Definition applyIncomingOp (w : Worker) (op : Element) : result Worker :=
  match crdt w !! SessionID op with
  | Some d =>
      match Elements d !! ID op with
      | None =>
          '(w', d') ← addToCRDT w op d;
          Ok (storeCRDT w' (SessionID op) d')
      | Some _ => Ok w
      end
  | None => Ok w
  end.

Fixpoint applyIncomingOps (w : Worker) (incomingOps : list Element)
    : result Worker :=
  match incomingOps with
  | [] => Ok w
  | op :: rest => w' ← applyIncomingOp w op; applyIncomingOps w' rest
  end.

Definition ApplyIncomingOps (w : Worker) (incomingOps : list Element)
    : result (Worker * error) :=
  w' ← applyIncomingOps w incomingOps; Ok (w', ErrNil).

(** The body of one cycle of [sendLocalOps], as far as the worker's own
    state goes: the buffer is emptied. *)
Definition flushLocalOps (w : Worker) : Worker :=
  mkWorker (workerID w) (crdt w) [].

(** ** The walk of [getMessage] *)

Fixpoint walkFrom (fuel : nat) (els : gmap string Element) (k : string)
    : result (list Element) :=
  match els !! k with
  | None => Ok []
  | Some firstOp =>
      match fuel with
      | O => Hang
      | S fuel' => l ← walkFrom fuel' els (NextID firstOp); Ok (firstOp :: l)
      end
  end.

Definition walk (d : CRDT) : result (list Element) :=
  walkFrom (loopBound (Elements d)) (Elements d) (CrdtFirstID d).

Definition concatText (l : list Element) : string :=
  foldr (λ e s, Text e +:+ s) "" l.

Definition getMessage (d : CRDT) : result string :=
  l ← walk d; Ok (concatText l).

Definition walkIDs (d : CRDT) : result (list string) :=
  walk d ≫= λ l : list Element, Ok (ID <$> l).

(** ** Runs of a worker

    The steps that change the documents or the buffer: [newSession] (the
    random session name is a parameter), [getSession] once a peer has
    answered with a snapshot, [addRight], [ApplyIncomingOps] and a cycle
    of [sendLocalOps]. *)

Definition newSession (w : Worker) (sessionID : string) : Worker :=
  storeCRDT w sessionID newCRDT.

Definition getSession (w : Worker) (sessionID : string) (snapshot : CRDT) : Worker :=
  storeCRDT w sessionID snapshot.

Inductive event : Type :=
| EvNewSession (sessionID : string)
| EvGetSession (sessionID : string) (snapshot : CRDT)
| EvAddRight (prevID content sessionID : string)
| EvApplyIncomingOps (incomingOps : list Element)
| EvSendLocalOps.

Definition step (w : Worker) (ev : event) : result Worker :=
  match ev with
  | EvNewSession sessionID => Ok (newSession w sessionID)
  | EvGetSession sessionID snapshot => Ok (getSession w sessionID snapshot)
  | EvAddRight prevID content sessionID =>
      addRight w prevID content sessionID ≫= λ r : Worker * error, Ok r.1
  | EvApplyIncomingOps incomingOps =>
      ApplyIncomingOps w incomingOps ≫= λ r : Worker * error, Ok r.1
  | EvSendLocalOps => Ok (flushLocalOps w)
  end.

Fixpoint run (w : Worker) (evs : list event) : result Worker :=
  match evs with
  | [] => Ok w
  | ev :: evs' => w' ← step w ev; run w' evs'
  end.

(** The worker after [init] and [registerWithLB]. *)
Definition initWorker (id : Z) : Worker := mkWorker id ∅ [].

(** Two inserts applied to one document, one after the other. *)
Definition applyTwo (w : Worker) (e1 e2 : Element) (d : CRDT) : result CRDT :=
  '(w1, d1) ← addToCRDT w e1 d;
  '(w2, d2) ← addToCRDT w1 e2 d1;
  Ok d2.

(** ** Document invariants *)

(** An identifier as the counters produce it: a positive decimal numeral
    that [Atoi] and [Itoa] take back to itself. *)
Definition numericID (s : string) : Prop := Itoa (Atoi s) = s ∧ 0 < Atoi s.

Global Instance numericID_dec s : Decision (numericID s).
Proof. unfold numericID. apply _. Defined.

(** [seg els k l k']: following [NextID] from the key [k] visits the
    elements of [l] in order, each stored under its own [ID], and the last
    link names [k']. *)
Fixpoint seg (els : gmap string Element) (k : string) (l : list Element)
    (k' : string) : Prop :=
  match l with
  | [] => k = k'
  | e :: l' => els !! k = Some e ∧ ID e = k ∧ seg els (NextID e) l' k'
  end.

(** The chain from [CrdtFirstID] visits [l], every identifier once, and
    ends at an element whose [NextID] is empty. *)
Record chained (d : CRDT) (l : list Element) : Prop := mkChained {
  chained_seg : seg (Elements d) (CrdtFirstID d) l "";
  chained_nodup : NoDup (ID <$> l);
  chained_noempty : Elements d !! "" = None
}.

(** No orphans: every stored element is on the chain. *)
Definition complete (d : CRDT) (l : list Element) : Prop :=
  ∀ k, is_Some (Elements d !! k) → k ∈ ID <$> l.

Definition numericIDs (l : list Element) : Prop :=
  Forall (λ e, numericID (ID e)) l.

Record wellFormed (d : CRDT) (l : list Element) : Prop := mkWellFormed {
  wf_chained : chained d l;
  wf_complete : complete d l;
  wf_numeric : numericIDs l
}.

(** Back links agree with the walk: each element names its walk
    predecessor as [PrevID]. *)
Definition doublyLinked (l : list Element) : Prop :=
  ∀ i y z, l !! i = Some y → l !! S i = Some z → PrevID z = ID y.

(** ** The insert at the level of the walk

    What the walk shows of an element: its identifier and its client. *)
Definition view (e : Element) : string * string := (ID e, ClientID e).

(** The loop condition of [samePlaceInsertCheck] for successor [u]. *)
Definition passes (v u : string * string) : bool :=
  bool_decide (Atoi v.1 ≤ Atoi u.1) && bool_decide (v.2 ≠ u.2).

(** [v] goes behind the successors that pass. *)
Fixpoint skipPast (v : string * string) (vs : list (string * string))
    : list (string * string) :=
  match vs with
  | [] => [v]
  | u :: vs' => if passes v u then u :: skipPast v vs' else v :: u :: vs'
  end.

(** [v] is placed to the right of the anchor [a]. *)
Fixpoint placeAfter (a : string) (v : string * string)
    (vs : list (string * string)) : list (string * string) :=
  match vs with
  | [] => []
  | u :: vs' =>
      if bool_decide (u.1 = a) then u :: skipPast v vs'
      else u :: placeAfter a v vs'
  end.

(** [y] comes before [x] in the list [ks]. *)
Definition before (y x : string) (ks : list string) : Prop :=
  ∃ l1 l2 l3, ks = l1 ++ y :: l2 ++ x :: l3.

(** ** Concrete operations and documents used in the examples *)

Module Scenario.

Definition opA (sid : string) : Element :=
  mkElement sid "1" false "11" INITIAL_ID "" "a".
Definition opB (sid : string) : Element :=
  mkElement sid "1" false "12" "11" "" "b".
Definition opC (sid : string) : Element :=
  mkElement sid "2" false "21" "11" "" "c".

(** A third insert of worker 1 at the anchor "11". *)
Definition opD (sid : string) : Element :=
  mkElement sid "1" false "13" "11" "" "d".

(** Two inserts at the sentinel anchor, minted by workers 2 and 3 at
    counter 2. *)
Definition opS2 : Element := mkElement "s" "2" false "22" INITIAL_ID "" "b".
Definition opS3 : Element := mkElement "s" "3" false "23" INITIAL_ID "" "c".

(** An insert whose reference "99" is in no document below. *)
Definition opU : Element := mkElement "s" "2" false "21" "99" "" "u".

(** The document holding only "11", as every replica has it after
    [opA]: the counter stands at 2. *)
Definition docA : CRDT := mkCRDT {[ "11" := opA "s" ]} "11" 2.

(** The document after [opA] and [opB]: "11" links to "12". *)
Definition docAB : CRDT :=
  mkCRDT {[ "11" := setNextID (opA "s") "12"; "12" := opB "s" ]} "11" 3.

(** The first insert of worker 2345: the identifier minted at counter
    1, "1" followed by "2345", reads as the sentinel. *)
Definition opZ : Element :=
  mkElement "s" "2345" false "12345" INITIAL_ID "" "a".

(** The document holding only [opZ]. *)
Definition docZ : CRDT := mkCRDT {[ "12345" := opZ ]} "12345" 2.

(** Worker [id] holding the session "s" with document [d]. *)
Definition holding (id : Z) (d : CRDT) : Worker :=
  mkWorker id {[ "s" := d ]} [].

(** The text of session "s" at a worker. *)
Definition textOf (w : Worker) : result string :=
  match crdt w !! "s" with
  | Some d => getMessage d
  | None => Panic
  end.

End Scenario.

(** ** Where a buffered element can come from *)

(** [ApplyIncomingOps] applies [op] at [w]: the worker holds the session
    of [op] and the document has no element under its identifier, so
    the loop body calls [addToCRDT]. *)
Definition applies (w : Worker) (op : Element) : Prop :=
  ∃ d, crdt w !! SessionID op = Some d ∧ Elements d !! ID op = None.

(** [e] was appended to the buffer by [ApplyIncomingOps] during the run
    [evs] started at [w0]: the run comes to a call with the batch
    [pre ++ op :: post] at [w1]; after [pre] the worker is [w2], where
    [op] is applied, and the loop body ends with [e] appended. [e] is a
    copy of [op] up to the [NextID] written by the resolver. *)
Definition relayed (w0 : Worker) (evs : list event) (e : Element) : Prop :=
  ∃ evs1 pre op post evs2 w1 w2 w3 n,
    evs = evs1 ++ EvApplyIncomingOps (pre ++ op :: post) :: evs2
    ∧ run w0 evs1 = Ok w1
    ∧ applyIncomingOps w1 pre = Ok w2
    ∧ applies w2 op
    ∧ applyIncomingOp w2 op = Ok w3
    ∧ localOps w3 = localOps w2 ++ [e]
    ∧ e = setNextID op n.

(** [e] was minted by this worker's [addRight]. *)
Definition locallyMinted (id : Z) (e : Element) : Prop :=
  ClientID e = Itoa id.

(** The element at which the loop of [samePlaceInsertCheck] stops when
    it starts at [A] and [rest] is the chain behind [A]. *)
Fixpoint stopAt (v : string * string) (A : Element) (rest : list Element)
    : Element :=
  match rest with
  | [] => A
  | s :: rest' => if passes v (view s) then stopAt v s rest' else A
  end.

(** ** Loops and their bounds

    The two loops of the code are followed by the key under which the
    current element is stored.  [loopNext] is the key of the next
    [prevOp] when the loop of [samePlaceInsertCheck] makes another turn,
    [walkNext] the key of the next element of the walk. *)
Definition loopNext (els : gmap string Element) (newElement : Element)
    (newOpID : Z) (k : string) : option string :=
  match els !! k with
  | None => None
  | Some prevOp =>
      if newOpID <=? Atoi (NextID prevOp) then
        match els !! NextID prevOp with
        | None => None
        | Some succ =>
            if bool_decide (ClientID newElement ≠ ClientID succ) then
              match els !! Itoa (Atoi (NextID prevOp)) with
              | None => None
              | Some _ => Some (Itoa (Atoi (NextID prevOp)))
              end
            else None
        end
      else None
  end.

Definition walkNext (els : gmap string Element) (k : string) : option string :=
  NextID <$> els !! k.

(** [depth nxt k n]: started at [k], the loop makes [n] turns and then
    stops. *)
Inductive depth (nxt : string → option string) : string → nat → Prop :=
| depth_stop k : nxt k = None → depth nxt k 0
| depth_turn k k' n : nxt k = Some k' → depth nxt k' n → depth nxt k (S n).

(** ** What an insert may not touch *)

(** The fields of a stored element that no insert writes. *)
Definition payload (e : Element) : string * string * bool * string * string :=
  (SessionID e, ClientID e, Deleted e, ID e, Text e).

(** The new element goes straight behind the anchor when the anchor has
    no successor, or the successor is of the same client, or it has a
    smaller number. *)
Definition staysAtAnchor (e : Element) (rest : list Element) : Prop :=
  match rest with
  | [] => True
  | s :: _ => ClientID e = ClientID s ∨ Atoi (ID s) < Atoi (ID e)
  end.

(** ** Batches and local edits *)

(** [ApplyIncomingOps] leaves [op] out: the worker does not hold the
    session, or the document has an element under the identifier. *)
Definition skipped (w : Worker) (op : Element) : Prop :=
  match crdt w !! SessionID op with
  | None => True
  | Some d => is_Some (Elements d !! ID op)
  end.

(** A series of [addRight] commands (reference and content) on one
    session, as typed at the prompt. *)
Fixpoint localEdits (w : Worker) (sessionID : string)
    (cmds : list (string * string)) : result Worker :=
  match cmds with
  | [] => Ok w
  | (prevID, content) :: rest =>
      r ← addRight w prevID content sessionID;
      localEdits (r : Worker * error).1 sessionID rest
  end.

(** Along the series every identifier that [addRight] mints is new to
    the document at that moment. *)
Fixpoint mintedFresh (w : Worker) (sessionID : string)
    (cmds : list (string * string)) : Prop :=
  match cmds with
  | [] => True
  | (prevID, content) :: rest =>
      match crdt w !! sessionID with
      | None => True
      | Some d =>
          (prevIDExists w prevID sessionID = true →
           Elements d !! mintOpID (NextOpNumber d) (workerID w) = None)
          ∧ match addRight w prevID content sessionID with
            | Ok r => mintedFresh r.1 sessionID rest
            | _ => True
            end
      end
  end.

(** ** Concurrent inserts at one anchor *)




(** ** Snapshots *)

(** [SendCRDT]: the error returned and the payload of the response. *)
Definition SendCRDT (w : Worker) (sessionID : string) : error * option CRDT :=
  match crdt w !! sessionID with
  | None => (NoCRDTError sessionID, None)
  | Some d => (ErrNil, Some d)
  end.

(** The loop of [getSession] over the peers in the order the map hands
    them out; [None] is a peer whose call fails on the connection. The
    first answer without error is installed and ends the loop. *)
Fixpoint getSessionFrom (w : Worker) (sessionID : string)
    (peers : list (option Worker)) : Worker :=
  match peers with
  | [] => w
  | peer :: rest =>
      match peer with
      | Some pw =>
          match SendCRDT pw sessionID with
          | (ErrNil, Some snapshot) => getSession w sessionID snapshot
          | _ => getSessionFrom w sessionID rest
          end
      | None => getSessionFrom w sessionID rest
      end
  end.

(** The peer cannot supply the session. *)
Definition cannotSupply (sessionID : string) (peer : option Worker) : Prop :=
  match peer with
  | Some pw => crdt pw !! sessionID = None
  | None => True
  end.

(** The element that [addRight] builds for worker [w] and document [d]. *)
Definition mintedElement (w : Worker) (d : CRDT)
    (prevID content sessionID : string) : Element :=
  mkElement sessionID (Itoa (workerID w)) false
    (mintOpID (NextOpNumber d) (workerID w)) prevID "" content.

(** * Properties *)

(** ** Equations of the resolver *)

Section ResolverEquations.

Implicit Types (w : Worker) (d : CRDT) (e : Element).

Lemma size_nonempty (els : gmap string Element) k v :
  els !! k = Some v → ¬ (size els ≤ 0)%nat.
Proof.
  intros Hk Hs. assert (size els = 0%nat) as H0 by lia.
  apply map_size_empty_iff in H0. subst els. by rewrite lookup_empty in Hk.
Qed.

Lemma addToCRDT_first w e d :
  Elements d = ∅ →
  addToCRDT w e d
  = Ok (addOpAndIncrementCounter w e (ID e) (setFirstID d (ID e))).
Proof.
  intros He. unfold addToCRDT, firstCRDTEntry.
  rewrite bool_decide_eq_true_2; [done|].
  rewrite He, map_size_empty. lia.
Qed.

Lemma addToCRDT_sentinel w e d k v firstOp :
  Elements d !! k = Some v →
  PrevID e = INITIAL_ID →
  Elements d !! CrdtFirstID d = Some firstOp →
  addToCRDT w e d
  = Ok (addOpAndIncrementCounter w (setNextID e (CrdtFirstID d)) (ID e)
          (mkCRDT (<[CrdtFirstID d := setPrevID firstOp (ID e)]> (Elements d))
             (ID e) (NextOpNumber d))).
Proof.
  intros Hk Hp Hf. unfold addToCRDT, firstCRDTEntry.
  rewrite bool_decide_eq_false_2 by eauto using size_nonempty.
  unfold replacingFirstOp. rewrite bool_decide_eq_true_2 by done.
  by rewrite Hf.
Qed.

Lemma addToCRDT_normal w e d k v p prevOp :
  Elements d !! k = Some v →
  PrevID e ≠ INITIAL_ID →
  samePlaceInsertCheck e (PrevID e) (ID e) d = Ok p →
  Elements d !! p = Some prevOp →
  addToCRDT w e d
  = Ok (addOpAndIncrementCounter w (setNextID e (NextID prevOp)) (ID e)
          (setElements d (<[p := setNextID prevOp (ID e)]> (Elements d)))).
Proof.
  intros Hk Hp Hs Hl. unfold addToCRDT, firstCRDTEntry.
  rewrite bool_decide_eq_false_2 by eauto using size_nonempty.
  unfold replacingFirstOp. rewrite bool_decide_eq_false_2 by done.
  cbn. unfold normalInsert. rewrite Hs. cbn. by rewrite Hl.
Qed.

(** The three ways in which [addToCRDT] returns. *)
Lemma addToCRDT_Ok_inv w e d w' d' :
  addToCRDT w e d = Ok (w', d') →
  (Elements d = ∅ ∧
   (w', d') = addOpAndIncrementCounter w e (ID e) (setFirstID d (ID e)))
  ∨ (Elements d ≠ ∅ ∧ PrevID e = INITIAL_ID ∧ ∃ firstOp,
      Elements d !! CrdtFirstID d = Some firstOp ∧
      (w', d') = addOpAndIncrementCounter w (setNextID e (CrdtFirstID d)) (ID e)
          (mkCRDT (<[CrdtFirstID d := setPrevID firstOp (ID e)]> (Elements d))
             (ID e) (NextOpNumber d)))
  ∨ (Elements d ≠ ∅ ∧ PrevID e ≠ INITIAL_ID ∧ ∃ p prevOp,
      samePlaceInsertCheck e (PrevID e) (ID e) d = Ok p ∧
      Elements d !! p = Some prevOp ∧
      (w', d') = addOpAndIncrementCounter w (setNextID e (NextID prevOp)) (ID e)
          (setElements d (<[p := setNextID prevOp (ID e)]> (Elements d)))).
Proof.
  unfold addToCRDT, firstCRDTEntry. case_bool_decide as Hsz.
  - intros [= <- <-]. left. split; [|done].
    apply map_size_empty_iff. lia.
  - assert (Elements d ≠ ∅) as Hne.
    { intros He. rewrite He, map_size_empty in Hsz. lia. }
    unfold replacingFirstOp. case_bool_decide as Hp.
    + destruct (Elements d !! CrdtFirstID d) as [firstOp|] eqn:Hf; [|done].
      cbn. intros [= <- <-]. right. left. eauto.
    + cbn. unfold normalInsert.
      destruct (samePlaceInsertCheck e (PrevID e) (ID e) d) as [p| |] eqn:Hs;
        [|done..].
      cbn. destruct (Elements d !! p) as [prevOp|] eqn:Hl; [|done].
      cbn. intros [= <- <-]. right. right. eauto 10.
Qed.

(** On return the new element is stored under its own identifier and a
    copy of it ends the buffer. *)
Lemma addToCRDT_stored w e d w' d' :
  addToCRDT w e d = Ok (w', d') →
  ∃ n, Elements d' !! ID e = Some (setNextID e n)
       ∧ localOps w' = localOps w ++ [setNextID e n]
       ∧ workerID w' = workerID w ∧ crdt w' = crdt w.
Proof.
  intros H. apply addToCRDT_Ok_inv in H as [(_ & H)|[(_ & _ & f & _ & H)|
    (_ & _ & p & q & _ & _ & H)]]; injection H as -> ->; cbn.
  - exists (NextID e). destruct e; cbn. by rewrite lookup_insert_eq.
  - exists (CrdtFirstID d). by rewrite lookup_insert_eq.
  - exists (NextID q). by rewrite lookup_insert_eq.
Qed.

End ResolverEquations.

(** ** The reference scenario *)

Section ScenarioFacts.
Import Scenario.

(** C7. From the empty document, the insert of "11" at the sentinel
    makes "11" the first element; the insert of "12" after "11" by the
    same client gives the text "ab"; the insert of "21" after "11" by
    client "2" gives the text "acb". *)
Theorem scenario_walk (w : Worker) (sid : string) :
  ∃ w1 d1 w2 d2 w3 d3,
    addToCRDT w (opA sid) newCRDT = Ok (w1, d1) ∧ CrdtFirstID d1 = "11" ∧
    addToCRDT w1 (opB sid) d1 = Ok (w2, d2) ∧ getMessage d2 = Ok "ab" ∧
    addToCRDT w2 (opC sid) d2 = Ok (w3, d3) ∧ getMessage d3 = Ok "acb".
Proof.
  do 6 eexists. repeat split; vm_compute; reflexivity.
Qed.

(** C1 fails on the code. Two replicas hold the same document and merge
    the same two sentinel inserts in opposite orders; both merges
    return, and the texts differ: the sentinel case links the element
    applied last in front, without looking at the identifiers. *)
Theorem sentinel_inserts_diverge :
  ∃ w1 w2,
    ApplyIncomingOps (holding 1 docA) [opS2; opS3] = Ok (w1, ErrNil) ∧
    ApplyIncomingOps (holding 1 docA) [opS3; opS2] = Ok (w2, ErrNil) ∧
    textOf w1 = Ok "cba" ∧ textOf w2 = Ok "bca".
Proof.
  do 2 eexists. repeat split; vm_compute; reflexivity.
Qed.

End ScenarioFacts.

(** ** The local insert path *)

Section LocalPath.

(** C10. For a session the worker holds no document of, [addRight]
    returns nil and the worker (documents, buffer, counters) is as
    before, whatever the reference and the content. *)
Theorem addRight_unknown_session (w : Worker) (prevID content sessionID : string) :
  crdt w !! sessionID = None →
  addRight w prevID content sessionID = Ok (w, ErrNil).
Proof.
  intros Hs. unfold addRight, prevIDExists. by rewrite Hs.
Qed.

Lemma addRight_unknown_session_witness :
  crdt (initWorker 1) !! "s" = None
  ∧ addRight (initWorker 1) "11" "a" "s" = Ok (initWorker 1, ErrNil).
Proof.
  split; [reflexivity|]. apply addRight_unknown_session. reflexivity.
Defined.

(** C3, as the code has it. On the local path an insert whose
    reference is neither in the element map nor the sentinel is not
    applied: the worker is unchanged, and [addRight] returns nil, the
    value it also returns after an insert. *)
Theorem addRight_unknown_reference (w : Worker)
    (prevID content sessionID : string) (d : CRDT) :
  crdt w !! sessionID = Some d →
  Elements d !! prevID = None →
  prevID ≠ INITIAL_ID →
  addRight w prevID content sessionID = Ok (w, ErrNil).
Proof.
  intros Hs He Hp. unfold addRight, prevIDExists. rewrite Hs, He.
  rewrite (bool_decide_eq_false_2 (is_Some None)) by (by intros [? ?]).
  by rewrite bool_decide_eq_false_2.
Qed.

Lemma addRight_unknown_reference_witness :
  crdt (Scenario.holding 1 Scenario.docA) !! "s" = Some Scenario.docA
  ∧ Elements Scenario.docA !! "99" = None
  ∧ "99" ≠ INITIAL_ID
  ∧ addRight (Scenario.holding 1 Scenario.docA) "99" "u" "s"
    = Ok (Scenario.holding 1 Scenario.docA, ErrNil).
Proof.
  assert (crdt (Scenario.holding 1 Scenario.docA) !! "s" = Some Scenario.docA)
    as H1 by reflexivity.
  assert (Elements Scenario.docA !! "99" = None) as H2 by reflexivity.
  assert ("99" ≠ INITIAL_ID) as H3 by (by vm_compute).
  split; [exact H1|]. split; [exact H2|]. split; [exact H3|].
  exact (addRight_unknown_reference _ "99" "u" "s" _ H1 H2 H3).
Defined.

(** C3 as stated fails on the merge path, which does not look at the
    reference: on an empty document the operation is applied and
    becomes the first element; on a document that has elements the
    lookup of the reference gives nil and the call panics. *)
Lemma merge_unknown_reference_applied :
  Elements newCRDT !! PrevID Scenario.opU = None
  ∧ Elements Scenario.docA !! PrevID Scenario.opU = None
  ∧ PrevID Scenario.opU ≠ INITIAL_ID
  ∧ (∃ w' d',
      ApplyIncomingOps (Scenario.holding 1 newCRDT) [Scenario.opU] = Ok (w', ErrNil)
      ∧ crdt w' !! "s" = Some d'
      ∧ Elements d' !! "21" = Some Scenario.opU
      ∧ CrdtFirstID d' = "21" ∧ CrdtFirstID newCRDT = ""
      ∧ NextOpNumber d' = 2 ∧ NextOpNumber newCRDT = 1)
  ∧ ApplyIncomingOps (Scenario.holding 1 Scenario.docA) [Scenario.opU] = Panic.
Proof.
  split; [reflexivity|]. split; [reflexivity|]. split; [by vm_compute|].
  split; [|by vm_compute].
  do 2 eexists. repeat split; vm_compute; reflexivity.
Qed.

(** C8 as stated fails: counter 1 at worker 23 and counter 12 at
    worker 3 mint the same identifier. *)
Lemma mintOpID_collision :
  (1, 23) ≠ (12, 3) ∧ mintOpID 1 23 = mintOpID 12 3.
Proof. split; [by intros [=]|reflexivity]. Qed.

Lemma append_nil (b : string) : "" +:+ b = b.
Proof. reflexivity. Qed.

Lemma append_cons (c : ascii) (a b : string) :
  String c a +:+ b = String c (a +:+ b).
Proof. reflexivity. Qed.

Lemma length_append (a b : string) :
  String.length (a +:+ b) = (String.length a + String.length b)%nat.
Proof.
  induction a as [|c a IH]; [done|].
  rewrite append_cons. simpl. by rewrite IH.
Qed.

Lemma append_inj_suffix (a b c d : string) :
  String.length b = String.length d → a +:+ b = c +:+ d → a = c ∧ b = d.
Proof.
  revert c. induction a as [|x a IH]; intros [|y c] Hl H;
    rewrite ?append_nil, ?append_cons in H.
  - done.
  - subst b. simpl in Hl. rewrite length_append in Hl. lia.
  - subst d. simpl in Hl. rewrite length_append in Hl. lia.
  - injection H as -> H. destruct (IH c Hl H) as [-> ->]. done.
Qed.

(** C8, as the code has it. Two (counter, worker) pairs whose worker
    identifiers have decimal numerals of the same length, in
    particular two counters of one worker, get different
    identifiers unless the pairs are equal. *)
Theorem mintOpID_inj (c1 w1 c2 w2 : Z) :
  String.length (Itoa w1) = String.length (Itoa w2) →
  mintOpID c1 w1 = mintOpID c2 w2 →
  c1 = c2 ∧ w1 = w2.
Proof.
  intros Hl H. destruct (append_inj_suffix _ _ _ _ Hl H) as [Hc Hw].
  unfold Itoa in *. split; by apply (inj pretty).
Qed.

Lemma mintOpID_inj_witness :
  String.length (Itoa 23) = String.length (Itoa 23)
  ∧ mintOpID 7 23 = mintOpID 7 23
  ∧ (7 = 7 ∧ 23 = 23).
Proof.
  split; [reflexivity|]. split; [reflexivity|].
  apply (mintOpID_inj 7 23 7 23); reflexivity.
Defined.

End LocalPath.

(** ** The merge path *)

Section MergePath.

Lemma applyIncomingOp_again (w w1 : Worker) (op : Element) :
  applyIncomingOp w op = Ok w1 → applyIncomingOp w1 op = Ok w1.
Proof.
  unfold applyIncomingOp.
  destruct (crdt w !! SessionID op) as [d|] eqn:Hd.
  - destruct (Elements d !! ID op) as [x|] eqn:Hx.
    + intros [= <-]. by rewrite Hd, Hx.
    + destruct (addToCRDT w op d) as [[w' d']| |] eqn:Ha; [|done..].
      cbn. intros [= <-]. cbn. rewrite lookup_insert_eq.
      apply addToCRDT_stored in Ha as (n & -> & _). done.
  - intros [= <-]. by rewrite Hd.
Qed.

(** C6. Delivering an operation twice through [ApplyIncomingOps] has
    the outcome of delivering it once: the same worker state (element
    maps, links, first identifiers, counters, buffer) when the first
    delivery returns, and the same failure when it does not. *)
Theorem merge_idempotent (w : Worker) (op : Element) :
  ApplyIncomingOps w [op; op] = ApplyIncomingOps w [op].
Proof.
  unfold ApplyIncomingOps. cbn.
  destruct (applyIncomingOp w op) as [w1| |] eqn:H; [|done..].
  cbn. by rewrite (applyIncomingOp_again _ _ _ H).
Qed.

End MergePath.

(** ** The buffer along a run *)

Section Buffer.

Lemma addRight_buffer (w w' : Worker) (prevID content sessionID : string) err :
  addRight w prevID content sessionID = Ok (w', err) →
  workerID w' = workerID w
  ∧ ∃ l, localOps w' = localOps w ++ l
         ∧ Forall (locallyMinted (workerID w)) l.
Proof.
  unfold addRight. destruct (prevIDExists w prevID sessionID); cbn.
  - destruct (crdt w !! sessionID) as [d|]; [|done].
    match goal with |- context [addToCRDT w ?e d] =>
      destruct (addToCRDT w e d) as [[w1 d1]| |] eqn:Ha; [|done..] end.
    cbn. intros [= <- <-]. cbn.
    apply addToCRDT_stored in Ha as (n & _ & Hl & Hw & _).
    split; [done|]. eexists. split; [exact Hl|].
    by apply Forall_singleton.
  - intros [= <- <-]. split; [done|]. exists []. by rewrite app_nil_r.
Qed.

Lemma applyIncomingOp_buffer (w w' : Worker) (op : Element) :
  applyIncomingOp w op = Ok w' →
  workerID w' = workerID w
  ∧ ∃ l, localOps w' = localOps w ++ l
         ∧ Forall (λ e, ∃ n, e = setNextID op n) l.
Proof.
  assert (workerID w = workerID w
          ∧ ∃ l, localOps w = localOps w ++ l
                 ∧ Forall (λ e, ∃ n, e = setNextID op n) l) as Hskip.
  { split; [done|]. exists []. by rewrite app_nil_r. }
  unfold applyIncomingOp.
  destruct (crdt w !! SessionID op) as [d|]; [|by intros [= <-]].
  destruct (Elements d !! ID op); [by intros [= <-]|].
  destruct (addToCRDT w op d) as [[w1 d1]| |] eqn:Ha; [|done..].
  cbn. intros [= <-]. cbn.
  apply addToCRDT_stored in Ha as (n & _ & Hl & Hw & _).
  split; [done|]. eexists. split; [exact Hl|].
  apply Forall_singleton. eauto.
Qed.

Lemma applyIncomingOps_buffer (ops : list Element) (w w' : Worker) :
  applyIncomingOps w ops = Ok w' →
  workerID w' = workerID w
  ∧ ∃ l, localOps w' = localOps w ++ l
         ∧ Forall (λ e, ∃ op n, op ∈ ops ∧ e = setNextID op n) l.
Proof.
  revert w. induction ops as [|op ops IH]; intros w; cbn.
  - intros [= <-]. split; [done|]. exists []. by rewrite app_nil_r.
  - destruct (applyIncomingOp w op) as [w1| |] eqn:H1; [|done..]. cbn.
    intros H2. apply applyIncomingOp_buffer in H1 as (Hw1 & l1 & Hl1 & Hf1).
    apply IH in H2 as (Hw2 & l2 & Hl2 & Hf2).
    split; [congruence|]. exists (l1 ++ l2). split.
    + by rewrite Hl2, Hl1, app_assoc.
    + apply Forall_app. split.
      * eapply Forall_impl; [exact Hf1|]. intros e [n ->].
        exists op, n. split; [left|done].
      * eapply Forall_impl; [exact Hf2|]. intros e (o & n & Ho & ->).
        exists o, n. split; [by right|done].
Qed.

Lemma applyIncomingOp_appends (w w' : Worker) (op : Element) :
  applyIncomingOp w op = Ok w' → applies w op →
  ∃ n, localOps w' = localOps w ++ [setNextID op n].
Proof.
  unfold applyIncomingOp. intros H (d & Hd & Hx). rewrite Hd, Hx in H.
  destruct (addToCRDT w op d) as [[w1 d1]| |] eqn:Ha; [|done..].
  cbn in H. injection H as <-. cbn.
  apply addToCRDT_stored in Ha as (n & _ & Hl & _). eauto.
Qed.

Lemma applyIncomingOp_origin (w w' : Worker) (op : Element) :
  applyIncomingOp w op = Ok w' →
  workerID w' = workerID w
  ∧ (w' = w
     ∨ applies w op ∧ ∃ n, localOps w' = localOps w ++ [setNextID op n]).
Proof.
  intros H. split; [by apply applyIncomingOp_buffer in H as [? _]|].
  unfold applyIncomingOp in H.
  destruct (crdt w !! SessionID op) as [d|] eqn:Hd;
    [|injection H as <-; by left].
  destruct (Elements d !! ID op) eqn:Hx; [injection H as <-; by left|].
  right. assert (applies w op) as Hap by (by exists d).
  split; [done|]. eapply applyIncomingOp_appends; [|done].
  unfold applyIncomingOp. by rewrite Hd, Hx.
Qed.

(** Where the elements of the buffer come from after a batch. *)
Lemma applyIncomingOps_origin (ops : list Element) (w w' : Worker) :
  applyIncomingOps w ops = Ok w' →
  workerID w' = workerID w
  ∧ ∀ e, e ∈ localOps w' →
      e ∈ localOps w
      ∨ ∃ pre op post w2 w3 n,
          ops = pre ++ op :: post
          ∧ applyIncomingOps w pre = Ok w2
          ∧ applies w2 op
          ∧ applyIncomingOp w2 op = Ok w3
          ∧ localOps w3 = localOps w2 ++ [e]
          ∧ e = setNextID op n.
Proof.
  revert w. induction ops as [|op ops IH]; intros w; cbn.
  - intros [= <-]. split; [done|]. intros e He. by left.
  - destruct (applyIncomingOp w op) as [w1| |] eqn:H1; [|done..]. cbn.
    intros H2. apply IH in H2 as (Hw2 & Hb2).
    pose proof (applyIncomingOp_origin _ _ _ H1) as (Hw1 & Hb1).
    split; [congruence|]. intros e He.
    apply Hb2 in He as [He|(pre & o & post & w2 & w3 & n & -> & Hpre & Hap & Ho & Hl & ->)].
    + destruct Hb1 as [->|(Hap & n & Hl)]; [by left|].
      rewrite Hl in He. apply elem_of_app in He as [He|He]; [by left|].
      apply list_elem_of_singleton in He as ->. right.
      exists [], op, ops, w, w1, n. done.
    + right. exists (op :: pre), o, post, w2, w3, n.
      split; [done|]. split; [|done]. cbn. by rewrite H1.
Qed.

(** What [addRight] does to the buffer: nothing when the reference is
    refused, one element of this worker otherwise. *)
Lemma addRight_appends (w w' : Worker) (prevID content sessionID : string) err :
  addRight w prevID content sessionID = Ok (w', err) →
  workerID w' = workerID w
  ∧ if prevIDExists w prevID sessionID
    then ∃ e, localOps w' = localOps w ++ [e] ∧ locallyMinted (workerID w) e
    else w' = w.
Proof.
  unfold addRight. destruct (prevIDExists w prevID sessionID); cbn.
  - destruct (crdt w !! sessionID) as [d|]; [|done].
    match goal with |- context [addToCRDT w ?e d] =>
      destruct (addToCRDT w e d) as [[w1 d1]| |] eqn:Ha; [|done..] end.
    cbn. intros [= <- <-]. cbn.
    apply addToCRDT_stored in Ha as (n & _ & Hl & Hw & _).
    split; [done|]. eexists. split; [exact Hl|]. done.
  - intros [= <- <-]. done.
Qed.

(** Where the elements of the buffer come from after a run. *)
Lemma run_origin (evs : list event) (w0 w : Worker) :
  run w0 evs = Ok w →
  workerID w = workerID w0
  ∧ ∀ e, e ∈ localOps w →
      e ∈ localOps w0 ∨ locallyMinted (workerID w0) e ∨ relayed w0 evs e.
Proof.
  revert w0. induction evs as [|ev evs IH]; intros w0; cbn.
  - intros [= <-]. split; [done|]. intros e He. by left.
  - destruct (step w0 ev) as [w1| |] eqn:Hs; [|done..]. cbn. intros Hr.
    apply IH in Hr as (Hid & Hb).
    assert (workerID w1 = workerID w0
            ∧ ∀ e, e ∈ localOps w1 →
                e ∈ localOps w0 ∨ locallyMinted (workerID w0) e
                ∨ relayed w0 (ev :: evs) e) as (Hid1 & Hb1).
    { destruct ev as [sid|sid snap|prevID content sid|ops|]; cbn in Hs.
      - injection Hs as <-. split; [done|]. intros e He. by left.
      - injection Hs as <-. split; [done|]. intros e He. by left.
      - destruct (addRight w0 prevID content sid) as [[w2 err]| |] eqn:Ha;
          [|done..].
        cbn in Hs. injection Hs as <-.
        apply addRight_appends in Ha as (Hw & Hl). split; [done|].
        intros e He. destruct (prevIDExists w0 prevID sid).
        + destruct Hl as (e' & Hl & Hm). rewrite Hl in He.
          apply elem_of_app in He as [He|He]; [by left|].
          apply list_elem_of_singleton in He as ->. right. by left.
        + subst w2. by left.
      - unfold ApplyIncomingOps in Hs.
        destruct (applyIncomingOps w0 ops) as [w2| |] eqn:Ha; [|done..].
        cbn in Hs. injection Hs as <-.
        apply applyIncomingOps_origin in Ha as (Hw & Hl). split; [done|].
        intros e He.
        apply Hl in He as [He|(pre & o & post & w2' & w3 & n & -> & Hpre & Hap & Ho & Hl3 & ->)];
          [by left|].
        right. right. exists [], pre, o, post, evs, w0, w2', w3, n. done.
      - injection Hs as <-. split; [done|]. cbn. intros e He.
        by apply elem_of_nil in He. }
    split; [congruence|]. intros e He.
    apply Hb in He as [He|[He|He]].
    + by apply Hb1.
    + right. left. by rewrite <- Hid1.
    + right. right.
      destruct He as (evs1 & pre & o & post & evs2 & w2 & w3 & w4 & n
                      & -> & Hr1 & Hpre & Hap & Ho & Hl & ->).
      exists (ev :: evs1), pre, o, post, evs2, w2, w3, w4, n.
      split; [done|]. split; [|done]. cbn. by rewrite Hs.
Qed.

(** C4, as the code has it. In every state a worker reaches, each
    element of the buffer either carries this worker's identifier as
    its client (it was minted by [addRight]) or was appended by
    [ApplyIncomingOps] when it applied an operation of the run, of which
    it is a copy. The merge path appends what it applies: in that state
    a merge step that applies an operation and returns has added one
    copy of it at the end of the buffer, and a step that applies
    nothing leaves the buffer alone. The local path does the same with
    an element of this worker. *)
Theorem buffer_local_or_relayed (id : Z) (evs : list event) (w : Worker) :
  run (initWorker id) evs = Ok w →
  (∀ e, e ∈ localOps w → locallyMinted id e ∨ relayed (initWorker id) evs e)
  ∧ (∀ op w', applyIncomingOp w op = Ok w' →
       (applies w op → ∃ n, localOps w' = localOps w ++ [setNextID op n])
       ∧ (¬ applies w op → localOps w' = localOps w))
  ∧ (∀ prevID content sessionID w' err,
       addRight w prevID content sessionID = Ok (w', err) →
       prevIDExists w prevID sessionID = true →
       ∃ e, localOps w' = localOps w ++ [e] ∧ locallyMinted id e).
Proof.
  intros Hr. apply run_origin in Hr as (Hid & Hb). cbn in Hid.
  split; [|split].
  - intros e He. apply Hb in He as [He|[He|He]]; [|by left|by right].
    by apply elem_of_nil in He.
  - intros op w' Ha. split.
    + by apply applyIncomingOp_appends.
    + intros Hn. apply applyIncomingOp_origin in Ha as (_ & [->|(Hap & _)]);
        [done|by destruct Hn].
  - intros prevID content sessionID w' err Ha Hp.
    apply addRight_appends in Ha as (_ & Hl). rewrite Hp in Hl.
    by rewrite <- Hid.
Qed.

Lemma buffer_local_or_relayed_witness :
  ∃ w, run (initWorker 1)
         [EvNewSession "s"; EvAddRight INITIAL_ID "a" "s";
          EvApplyIncomingOps [Scenario.opC "s"]] = Ok w
       ∧ (∀ e, e ∈ localOps w
           → locallyMinted 1 e
             ∨ relayed (initWorker 1)
                 [EvNewSession "s"; EvAddRight INITIAL_ID "a" "s";
                  EvApplyIncomingOps [Scenario.opC "s"]] e)
       ∧ (∀ op w', applyIncomingOp w op = Ok w' →
            (applies w op → ∃ n, localOps w' = localOps w ++ [setNextID op n])
            ∧ (¬ applies w op → localOps w' = localOps w))
       ∧ (∀ prevID content sessionID w' err,
            addRight w prevID content sessionID = Ok (w', err) →
            prevIDExists w prevID sessionID = true →
            ∃ e, localOps w' = localOps w ++ [e] ∧ locallyMinted 1 e).
Proof.
  eexists. split; [vm_compute; reflexivity|].
  apply (buffer_local_or_relayed 1
           [EvNewSession "s"; EvAddRight INITIAL_ID "a" "s";
            EvApplyIncomingOps [Scenario.opC "s"]]).
  vm_compute. reflexivity.
Defined.

(** C4 as stated fails: after a new session and the merge of one
    operation of client "2", the buffer of worker 1 holds that
    operation. *)
Lemma buffer_holds_remote_op :
  ∃ w, run (initWorker 1) [EvNewSession "s"; EvApplyIncomingOps [Scenario.opU]] = Ok w
       ∧ Scenario.opU ∈ localOps w
       ∧ ClientID Scenario.opU ≠ Itoa (workerID w).
Proof.
  eexists. split; [vm_compute; reflexivity|]. split; [left|by vm_compute].
Qed.

End Buffer.

(** ** Two inserts at one anchor *)

Section SamePlace.

Implicit Types (els : gmap string Element) (e p : Element).

Lemma samePlaceLoop_stop fuel els e n p m :
  ¬ n ≤ m → samePlaceLoop (S fuel) els e n p m = Ok (ID p).
Proof. intros H. cbn. by rewrite (proj2 (Z.leb_gt _ _)) by lia. Qed.

Lemma samePlaceLoop_same_client fuel els e n p m s :
  els !! NextID p = Some s → ClientID e = ClientID s →
  samePlaceLoop (S fuel) els e n p m = Ok (ID p).
Proof.
  intros Hs Hc. cbn. destruct (n <=? m); [|done].
  rewrite Hs. rewrite bool_decide_eq_false_2; [done|]. by intros H.
Qed.

Lemma samePlaceLoop_step fuel els e n p m s p' :
  n ≤ m → els !! NextID p = Some s → ClientID e ≠ ClientID s →
  els !! Itoa m = Some p' →
  samePlaceLoop (S fuel) els e n p m
  = samePlaceLoop fuel els e n p' (Atoi (NextID p')).
Proof.
  intros Hn Hs Hc Hp. cbn. rewrite (proj2 (Z.leb_le _ _)) by done.
  rewrite Hs. rewrite bool_decide_eq_true_2 by done. by rewrite Hp.
Qed.

Lemma numericID_nonempty (k : string) : 0 < Atoi k → k ≠ "".
Proof. intros H ->. cbn in H. lia. Qed.


End SamePlace.

(** ** Chains *)

Section Chains.

Implicit Types (els : gmap string Element) (l : list Element) (k : string).

Lemma seg_frame els k l k' j v :
  seg els k l k' → j ∉ ID <$> l → seg (<[j := v]> els) k l k'.
Proof.
  revert k. induction l as [|e l IH]; intros k; cbn; [done|].
  intros (Hk & Hid & Hl) Hj. apply not_elem_of_cons in Hj as [Hj1 Hj2].
  split; [|split; [done|by apply IH]].
  rewrite lookup_insert_ne; [done|congruence].
Qed.

Lemma seg_app els k l1 l2 k' :
  seg els k (l1 ++ l2) k' ↔ ∃ m, seg els k l1 m ∧ seg els m l2 k'.
Proof.
  revert k. induction l1 as [|e l1 IH]; intros k; cbn.
  - split; [intros H; by exists k|by intros (m & -> & H)].
  - rewrite IH. split.
    + intros (Hk & Hid & m & H1 & H2). exists m. done.
    + intros (m & (Hk & Hid & H1) & H2). eauto.
Qed.

Lemma seg_lookup els k l k' e :
  seg els k l k' → e ∈ l → els !! ID e = Some e.
Proof.
  revert k. induction l as [|e' l IH]; intros k; cbn.
  - intros _ H. by apply elem_of_nil in H.
  - intros (Hk & Hid & Hl) [->|He]%elem_of_cons; [by rewrite Hid|by eapply IH].
Qed.

Lemma seg_lookup_id els k l k' j :
  seg els k l k' → j ∈ ID <$> l → ∃ e, e ∈ l ∧ ID e = j ∧ els !! j = Some e.
Proof.
  intros Hs (e & -> & He)%list_elem_of_fmap. exists e.
  split; [done|]. split; [done|]. by eapply seg_lookup.
Qed.

Lemma seg_fresh els k l k' j :
  seg els k l k' → els !! j = None → j ∉ ID <$> l.
Proof.
  intros Hs Hj Hin. destruct (seg_lookup_id _ _ _ _ _ Hs Hin) as (e & _ & _ & He).
  congruence.
Qed.

(** A chain without repetition is no longer than the map is large. *)
Lemma seg_length els k l k' :
  seg els k l k' → NoDup (ID <$> l) → (length l ≤ size els)%nat.
Proof.
  intros Hs Hnd.
  rewrite <- (length_fmap ID l), <- (size_dom (D := gset string) els).
  rewrite <- (size_list_to_set (C := gset string) (ID <$> l)) by done.
  apply subseteq_size. intros j Hj. apply elem_of_list_to_set in Hj.
  apply elem_of_dom. destruct (seg_lookup_id _ _ _ _ _ Hs Hj) as (e & _ & _ & He).
  by exists e.
Qed.

Lemma walkFrom_seg els l : ∀ k fuel,
  seg els k l "" → els !! "" = None → (length l ≤ fuel)%nat →
  walkFrom fuel els k = Ok l.
Proof.
  induction l as [|e l IH]; intros k fuel; cbn.
  - intros -> He _. destruct fuel; cbn; by rewrite He.
  - intros (Hk & Hid & Hl) He Hf. destruct fuel as [|fuel]; [lia|].
    cbn. rewrite Hk. rewrite (IH (NextID e) fuel); [done..|lia].
Qed.

(** The walk of [getMessage] ends and yields the chain. *)
Lemma chained_walk (d : CRDT) l : chained d l → walk d = Ok l.
Proof.
  intros [Hs Hnd He]. unfold walk, loopBound.
  apply walkFrom_seg; [done..|]. pose proof (seg_length _ _ _ _ Hs Hnd). lia.
Qed.

(** Splicing a fresh element behind [p]. *)
Lemma seg_splice els k l1 p l2 k' x X :
  seg els k (l1 ++ p :: l2) k' → NoDup (ID <$> (l1 ++ p :: l2)) →
  els !! x = None → ID X = x → NextID X = NextID p →
  seg (<[x := X]> (<[ID p := setNextID p x]> els)) k
    (l1 ++ setNextID p x :: X :: l2) k'.
Proof.
  intros Hs Hnd Hx HidX HnX.
  pose proof (seg_fresh _ _ _ _ _ Hs Hx) as Hfresh.
  rewrite fmap_app, fmap_cons in Hnd, Hfresh.
  apply NoDup_app in Hnd as (Hnd1 & Hdisj & Hnd2).
  apply NoDup_cons in Hnd2 as [Hp2 Hnd2].
  apply not_elem_of_app in Hfresh as [Hf1 Hf2].
  apply not_elem_of_cons in Hf2 as [Hxp Hf2].
  apply seg_app in Hs as (m & Hs1 & Hs2). cbn in Hs2.
  destruct Hs2 as (Hm & Hidp & Hs2). subst m.
  apply seg_app. exists (ID p). split.
  - apply seg_frame; [apply seg_frame; [done|]|done].
    intros Hin. apply (Hdisj _ Hin). left.
  - cbn. split; [|split; [done|]].
    { rewrite lookup_insert_ne by done. by rewrite lookup_insert_eq. }
    split; [by rewrite lookup_insert_eq|]. split; [done|].
    rewrite HnX. apply seg_frame; [by apply seg_frame|done].
Qed.

End Chains.

(** ** Every insert that returns keeps the chain *)

Section ChainPreserved.

Implicit Types (w : Worker) (d : CRDT) (e : Element) (l : list Element).

Lemma copy_eq e :
  mkElement (SessionID e) (ClientID e) (Deleted e) (ID e) (PrevID e)
    (NextID e) (Text e) = e.
Proof. by destruct e. Qed.

Lemma chained_first_entry w e d l :
  chained d l → Elements d = ∅ → ID e ≠ "" → NextID e = "" →
  let d' := (addOpAndIncrementCounter w e (ID e) (setFirstID d (ID e))).2 in
  chained d' [e] ∧ complete d' [e].
Proof.
  intros _ Hemp Hne Hnx. cbn. rewrite copy_eq, Hemp. split.
  - split; cbn.
    + rewrite lookup_insert_eq. by rewrite Hnx.
    + apply NoDup_singleton.
    + rewrite lookup_insert_ne by done. apply lookup_empty.
  - intros k [v Hk]. cbn in Hk.
    destruct (decide (k = ID e)) as [->|Hke]; [cbn; left|].
    rewrite lookup_insert_ne in Hk by done. by rewrite lookup_empty in Hk.
Qed.

Lemma chained_sentinel w e d l firstOp :
  chained d l → Elements d !! ID e = None → ID e ≠ "" →
  Elements d !! CrdtFirstID d = Some firstOp →
  let e' := setNextID e (CrdtFirstID d) in
  let d' := (addOpAndIncrementCounter w e' (ID e)
               (mkCRDT (<[CrdtFirstID d := setPrevID firstOp (ID e)]> (Elements d))
                  (ID e) (NextOpNumber d))).2 in
  ∃ l2, l = firstOp :: l2
        ∧ chained d' (e' :: setPrevID firstOp (ID e) :: l2)
        ∧ (complete d l → complete d' (e' :: setPrevID firstOp (ID e) :: l2)).
Proof.
  intros [Hs Hnd Hemp] Hfresh Hne Hf. cbn.
  destruct l as [|f l2]; cbn in Hs.
  { rewrite Hs in Hf. congruence. }
  destruct Hs as (Hk & Hid & Hs). rewrite Hf in Hk. injection Hk as <-.
  exists l2. split; [done|].
  assert (ID e ≠ CrdtFirstID d) as Hxf by congruence.
  pose proof (seg_fresh _ _ _ _ _ Hs Hfresh) as Hx2.
  cbn in Hnd. apply NoDup_cons in Hnd as [Hf2 Hnd2].
  split; [split|]; cbn.
  - split; [by rewrite lookup_insert_eq|]. split; [done|].
    split; [rewrite lookup_insert_ne by done; by rewrite lookup_insert_eq|].
    split; [done|]. apply seg_frame; [apply seg_frame|]; [done| |done].
    by rewrite <- Hid.
  - apply NoDup_cons. split.
    + intros [E|Hin]%elem_of_cons; [congruence|done].
    + by apply NoDup_cons.
  - rewrite !lookup_insert_ne; [done|congruence|done].
  - intros Hc j [v Hj]. cbn in Hj.
    destruct (decide (j = ID e)) as [->|Hje]; [left|].
    rewrite lookup_insert_ne in Hj by done. right.
    destruct (decide (j = CrdtFirstID d)) as [->|Hjf]; [cbn; rewrite Hid; left|].
    rewrite lookup_insert_ne in Hj by done.
    assert (j ∈ ID <$> firstOp :: l2) as Hin by (apply Hc; eauto).
    cbn in Hin. apply elem_of_cons in Hin as [E|Hin]; [congruence|by right].
Qed.

Lemma chained_splice_on w e d l1 prevOp l2 :
  chained d (l1 ++ prevOp :: l2) → Elements d !! ID e = None → ID e ≠ "" →
  let e' := setNextID e (NextID prevOp) in
  let l' := l1 ++ setNextID prevOp (ID e) :: e' :: l2 in
  let d' := (addOpAndIncrementCounter w e' (ID e)
               (setElements d (<[ID prevOp := setNextID prevOp (ID e)]> (Elements d)))).2 in
  chained d' l' ∧ (complete d (l1 ++ prevOp :: l2) → complete d' l').
Proof.
  intros [Hs Hnd Hemp] Hfresh Hne. cbn.
  assert (Elements d !! ID prevOp = Some prevOp) as Hp.
  { eapply seg_lookup; [exact Hs|]. apply elem_of_app. right. left. }
  assert (ID prevOp ≠ "") as Hpne by congruence.
  assert (ID e ≠ ID prevOp) as Hxp by congruence.
  split; [split|]; cbn.
  - by apply seg_splice.
  - pose proof (seg_fresh _ _ _ _ _ Hs Hfresh) as Hx.
    rewrite fmap_app, fmap_cons in *. cbn.
    apply NoDup_app in Hnd as (Hnd1 & Hdisj & Hnd2).
    apply NoDup_cons in Hnd2 as [Hp2 Hnd2].
    apply not_elem_of_app in Hx as [Hx1 Hx2].
    apply not_elem_of_cons in Hx2 as [Hx2 Hx3].
    apply NoDup_app. split; [done|]. split.
    + intros j Hj1 [E|[E|Hj2]%elem_of_cons]%elem_of_cons.
      * apply (Hdisj j Hj1). rewrite E. left.
      * congruence.
      * apply (Hdisj j Hj1). by right.
    + apply NoDup_cons. split.
      * intros [E|Hj]%elem_of_cons; [congruence|done].
      * apply NoDup_cons. done.
  - rewrite !lookup_insert_ne; [done|congruence|done].
  - intros Hc j [v Hj]. cbn in Hj.
    rewrite fmap_app, !fmap_cons. cbn.
    destruct (decide (j = ID e)) as [->|Hje].
    { apply elem_of_app. right. right. left. }
    rewrite lookup_insert_ne in Hj by done.
    assert (j ∈ ID <$> l1 ++ prevOp :: l2) as Hin'.
    { destruct (decide (j = ID prevOp)) as [->|Hjp].
      - rewrite fmap_app, fmap_cons. apply elem_of_app. right. left.
      - rewrite lookup_insert_ne in Hj by done. apply Hc. eauto. }
    rewrite fmap_app, fmap_cons in Hin'.
    apply elem_of_app in Hin' as [?|[E|?]%elem_of_cons]; apply elem_of_app.
    + by left.
    + right. rewrite E. left.
    + right. right. by right.
Qed.

Lemma chained_splice_off w e d l p prevOp :
  chained d l → Elements d !! ID e = None → ID e ≠ "" →
  Elements d !! p = Some prevOp → p ∉ ID <$> l →
  let e' := setNextID e (NextID prevOp) in
  let d' := (addOpAndIncrementCounter w e' (ID e)
               (setElements d (<[p := setNextID prevOp (ID e)]> (Elements d)))).2 in
  chained d' l ∧ ¬ complete d l.
Proof.
  intros [Hs Hnd Hemp] Hfresh Hne Hp Hout. cbn. split; [split|]; cbn.
  - apply seg_frame; [by apply seg_frame|]. by eapply seg_fresh.
  - done.
  - rewrite !lookup_insert_ne; [done|congruence|done].
  - intros Hc. apply Hout, Hc. eauto.
Qed.

(** C9, as the code has it. An insert of a fresh, non-empty identifier
    that returns (on an empty document: with empty [NextID], as every
    local insert has) keeps the chain: the walk from [CrdtFirstID]
    ends, visits no identifier twice, ends at an element with empty
    [NextID], and still visits every stored element if it did before.
    The stored element keeps the reference of the insert as its
    [PrevID]. *)
Theorem insert_preserves_chain w e d l w' d' :
  chained d l → Elements d !! ID e = None → ID e ≠ "" →
  (Elements d = ∅ → NextID e = "") →
  addToCRDT w e d = Ok (w', d') →
  ∃ l', chained d' l' ∧ walk d' = Ok l'
        ∧ (complete d l → complete d' l')
        ∧ ∃ stored, Elements d' !! ID e = Some stored
                    ∧ PrevID stored = PrevID e.
Proof.
  intros Hch Hfresh Hne Hnx Ha.
  destruct (addToCRDT_stored _ _ _ _ _ Ha) as (n & Hst & _).
  assert (∃ l', chained d' l' ∧ (complete d l → complete d' l')) as (l' & H1 & H2).
  { apply addToCRDT_Ok_inv in Ha as [(Hemp & H)|[(_ & _ & f & Hf & H)|
      (_ & _ & p & q & _ & Hq & H)]].
    - exists [e]. destruct (chained_first_entry w e d l Hch Hemp Hne (Hnx Hemp))
        as [Hc1 Hc2]. rewrite <- H in Hc1, Hc2. cbn in Hc1, Hc2. eauto.
    - destruct (chained_sentinel w e d l f Hch Hfresh Hne Hf) as (l2 & _ & Hc1 & Hc2).
      rewrite <- H in Hc1, Hc2. cbn in Hc1, Hc2. eauto.
    - destruct (decide (p ∈ ID <$> l)) as [Hin|Hout].
      + destruct (seg_lookup_id _ _ _ _ _ (chained_seg _ _ Hch) Hin)
          as (q' & Hq' & Hidq & Hlq).
        rewrite Hq in Hlq. injection Hlq as <-. subst p.
        apply list_elem_of_split in Hq' as (l1 & l2 & ->).
        destruct (chained_splice_on w e d l1 q l2 Hch Hfresh Hne) as [Hc1 Hc2].
        rewrite <- H in Hc1, Hc2. cbn in Hc1, Hc2. eauto.
      + destruct (chained_splice_off w e d l p q Hch Hfresh Hne Hq Hout)
          as [Hc1 Hc2].
        rewrite <- H in Hc1. cbn in Hc1. exists l. split; [done|]. by intros ?. }
  exists l'. split; [done|]. split; [by apply chained_walk|]. split; [done|].
  by exists (setNextID e n).
Qed.

End ChainPreserved.

(** ** The insert seen on the walk *)

Section WalkLevel.

Implicit Types (w : Worker) (d : CRDT) (e : Element) (l : list Element).
Implicit Types (v u : string * string) (vs : list (string * string)).

Lemma stopAt_split v A rest :
  ∃ pre p post,
    A :: rest = pre ++ p :: post ∧ p = stopAt v A rest
    ∧ view A :: skipPast v (view <$> rest)
      = (view <$> pre) ++ view p :: v :: (view <$> post).
Proof.
  revert A. induction rest as [|s rest IH]; intros A; cbn.
  - by exists [], A, [].
  - destruct (passes v (view s)).
    + destruct (IH s) as (pre & p & post & E1 & E2 & E3).
      exists (A :: pre), p, post. cbn. rewrite E1, E3. done.
    + by exists [], A, (s :: rest).
Qed.

(** On a chain of numeric identifiers the loop follows the chain and
    stops where [stopAt] says. *)
Lemma samePlaceLoop_chain els X rest : ∀ A fuel,
  seg els (NextID A) rest "" → numericIDs rest → 0 < Atoi (ID X) →
  (length rest < fuel)%nat →
  samePlaceLoop fuel els X (Atoi (ID X)) A (Atoi (NextID A))
  = Ok (ID (stopAt (view X) A rest)).
Proof.
  induction rest as [|s rest IH]; intros A fuel Hs Hnum Hpos Hf;
    (destruct fuel as [|fuel]; [cbn in Hf; lia|]).
  - cbn in Hs. rewrite Hs. apply samePlaceLoop_stop. cbn. lia.
  - cbn in Hs. destruct Hs as (Hk & Hid & Hs).
    apply Forall_cons in Hnum as [[Hcan _] Hnum].
    cbn [stopAt]. unfold passes. cbn [view fst snd].
    destruct (decide (Atoi (ID X) ≤ Atoi (ID s))) as [Hle|Hgt].
    + rewrite (bool_decide_eq_true_2 _ Hle).
      destruct (decide (ClientID X = ClientID s)) as [Hc|Hc].
      * rewrite (bool_decide_eq_false_2 (ClientID X ≠ ClientID s))
          by (by intros H). cbn.
        by eapply samePlaceLoop_same_client.
      * rewrite (bool_decide_eq_true_2 _ Hc). cbn [andb].
        erewrite samePlaceLoop_step;
          [|by rewrite <- Hid|exact Hk|done|by rewrite <- Hid, Hcan, Hid].
        apply IH; [done..|]. cbn in Hf. lia.
    + rewrite (bool_decide_eq_false_2 _ Hgt). cbn [andb].
      apply samePlaceLoop_stop. by rewrite <- Hid.
Qed.

Lemma placeAfter_split a v vs1 u vs2 :
  a ∉ fst <$> vs1 → u.1 = a →
  placeAfter a v (vs1 ++ u :: vs2) = vs1 ++ u :: skipPast v vs2.
Proof.
  intros Hout Hu. induction vs1 as [|u1 vs1 IH]; cbn.
  - by rewrite bool_decide_eq_true_2.
  - cbn in Hout. apply not_elem_of_cons in Hout as [H1 H2].
    rewrite bool_decide_eq_false_2 by congruence. by rewrite IH.
Qed.

Lemma view_fst l : (view <$> l).*1 = ID <$> l.
Proof. induction l as [|e l IH]; cbn; [done|by rewrite IH]. Qed.

(** An insert behind an anchor of a well-formed document returns; the
    document stays well-formed, and its walk is the old one with the
    new element put in by [placeAfter]. *)
Lemma insert_normal_spec w X d l a :
  wellFormed d l → a ∈ ID <$> l → a ≠ INITIAL_ID → PrevID X = a →
  Elements d !! ID X = None → numericID (ID X) →
  ∃ w' d' l',
    addToCRDT w X d = Ok (w', d') ∧ wellFormed d' l'
    ∧ view <$> l' = placeAfter a (view X) (view <$> l).
Proof.
  intros [Hch Hco Hnum] Hin Hsent HpX Hfresh [HcanX HposX].
  assert (ID X ≠ "") as HneX by (by apply numericID_nonempty).
  pose proof Hch as [Hs Hnd Hemp].
  destruct (seg_lookup_id _ _ _ _ _ Hs Hin) as (A & HA & HidA & HlA).
  apply list_elem_of_split in HA as (l1 & rest & ->).
  (* the chain behind the anchor *)
  pose proof Hs as Hs'. apply seg_app in Hs' as (m & _ & Hs2).
  cbn in Hs2. destruct Hs2 as (_ & _ & Hrest).
  assert (numericIDs rest) as Hnrest.
  { apply Forall_app in Hnum as [_ Hn]. by apply Forall_cons in Hn as [_ Hn]. }
  assert (length rest < loopBound (Elements d))%nat as Hfuel.
  { pose proof (seg_length _ _ _ _ Hs Hnd) as Hlen.
    rewrite length_app in Hlen. cbn in Hlen. unfold loopBound. lia. }
  (* where the loop stops *)
  assert (samePlaceInsertCheck X (PrevID X) (ID X) d
          = Ok (ID (stopAt (view X) A rest))) as Hstop.
  { unfold samePlaceInsertCheck. rewrite HpX, HlA. case_bool_decide as Hn.
    - by apply samePlaceLoop_chain.
    - assert (NextID A = "") as HnA by (by destruct (decide (NextID A = ""))).
      destruct rest as [|s rest]; [cbn; congruence|].
      cbn in Hrest. destruct Hrest as (Hk & _). congruence. }
  destruct (stopAt_split (view X) A rest) as (pre & p & post & Esplit & Ep & Eview).
  rewrite <- Ep in Hstop.
  assert (l1 ++ A :: rest = (l1 ++ pre) ++ p :: post) as El
    by (by rewrite Esplit, <- app_assoc).
  rewrite El in Hch, Hco, Hnum, Hs.
  assert (Elements d !! ID p = Some p) as Hlp.
  { eapply seg_lookup; [exact Hs|]. apply elem_of_app. right. left. }
  eexists _, _, _. split; [|split].
  - rewrite (addToCRDT_normal w X d _ _ _ _ HlA ltac:(congruence) Hstop Hlp).
    apply f_equal. apply surjective_pairing.
  - destruct (chained_splice_on w X d (l1 ++ pre) p post Hch Hfresh HneX)
      as [Hc1 Hc2].
    split; [exact Hc1|by apply Hc2|].
    apply Forall_app in Hnum as [Hn1 Hn2]. apply Forall_cons in Hn2 as [Hnp Hn2].
    apply Forall_app. split; [done|].
    apply Forall_cons. split; [done|]. apply Forall_cons. by split.
  - assert (a ∉ (view <$> l1).*1) as Hout.
    { rewrite view_fst. rewrite fmap_app, fmap_cons in Hnd.
      apply NoDup_app in Hnd as (_ & Hdisj & _).
      intros Hin1. apply (Hdisj _ Hin1). rewrite HidA. left. }
    rewrite (fmap_app view l1 (A :: rest)), (fmap_cons view A rest).
    rewrite (placeAfter_split a (view X) _ (view A) _ Hout HidA).
    rewrite Eview. rewrite !fmap_app, !fmap_cons. cbn.
    by rewrite <- app_assoc.
Qed.

End WalkLevel.

(** ** Two inserts of one client at one anchor *)

Section SameClient.

Implicit Types (w : Worker) (d : CRDT) (e : Element) (l : list Element).
Implicit Types (v u : string * string) (vs : list (string * string)).

Lemma addToCRDT_keys w e d w' d' k :
  addToCRDT w e d = Ok (w', d') → k ≠ ID e →
  Elements d !! k = None → Elements d' !! k = None.
Proof.
  intros H Hk Hn.
  apply addToCRDT_Ok_inv in H as [(_ & H)|[(_ & _ & f & Hf & H)|
    (_ & _ & p & q & _ & Hq & H)]]; injection H as -> ->; cbn;
    rewrite lookup_insert_ne by done; [done|..];
    rewrite lookup_insert_ne; [done|congruence|done|congruence].
Qed.

Lemma passes_same_client v u : u.2 = v.2 → passes v u = false.
Proof.
  intros H. unfold passes. rewrite (bool_decide_eq_false_2 (v.2 ≠ u.2)).
  - apply andb_false_r.
  - intros Hne. by apply Hne.
Qed.

Lemma skipPast_split v vs : ∃ pre post, skipPast v vs = pre ++ v :: post.
Proof.
  induction vs as [|u0 vs (pre & post & IH)]; cbn.
  - by exists [], [].
  - destruct (passes v u0).
    + exists (u0 :: pre), post. by rewrite IH.
    + by exists [], (u0 :: vs).
Qed.

(** Whatever the numbers, the second element of a client stops in
    front of the first. *)
Lemma skipPast_twice vx vy vs :
  vx.2 = vy.2 →
  ∃ t1 t2 t3, skipPast vy (skipPast vx vs) = t1 ++ vy :: t2 ++ vx :: t3.
Proof.
  intros Hc. induction vs as [|u0 vs (t1 & t2 & t3 & IH)]; cbn.
  - rewrite passes_same_client by done. by exists [], [], [].
  - destruct (passes vx u0) eqn:Hx; cbn.
    + destruct (passes vy u0) eqn:Hy.
      * exists (u0 :: t1), t2, t3. by rewrite IH.
      * destruct (skipPast_split vx vs) as (pre & post & E).
        exists [], (u0 :: pre), post. by rewrite E.
    + rewrite passes_same_client by done. by exists [], [], (u0 :: vs).
Qed.

Lemma first_occurrence a vs :
  a ∈ vs.*1 → ∃ vs1 u vs2, vs = vs1 ++ u :: vs2 ∧ u.1 = a ∧ a ∉ vs1.*1.
Proof.
  induction vs as [|u0 vs IH]; cbn; intros Hin.
  - by apply elem_of_nil in Hin.
  - destruct (decide (u0.1 = a)) as [E|Hne].
    + exists [], u0, vs. split; [done|]. split; [done|]. apply not_elem_of_nil.
    + apply elem_of_cons in Hin as [E|Hin]; [congruence|].
      destruct (IH Hin) as (vs1 & u & vs2 & -> & Hu & Hout).
      exists (u0 :: vs1), u, vs2. split; [done|]. split; [done|].
      cbn. apply not_elem_of_cons. split; [congruence|done].
Qed.

(** C2, as the code has it. A well-formed document has the anchor
    [a]; X and then Y, of one client and with fresh numeric
    identifiers, are inserted with [a] as reference. Both inserts
    return, and the walk visits Y, the one applied second, before X,
    whichever of the two numbers is larger. *)
Theorem same_client_second_in_front w d l a X Y :
  wellFormed d l → a ∈ ID <$> l → a ≠ INITIAL_ID →
  PrevID X = a → PrevID Y = a → ClientID X = ClientID Y →
  numericID (ID X) → numericID (ID Y) → ID X ≠ ID Y →
  Elements d !! ID X = None → Elements d !! ID Y = None →
  ∃ d' ks, applyTwo w X Y d = Ok d' ∧ walkIDs d' = Ok ks
           ∧ before (ID Y) (ID X) ks.
Proof.
  intros Hwf Hin Hsent HpX HpY Hcl HnX HnY Hxy HfX HfY.
  destruct (insert_normal_spec w X d l a Hwf Hin Hsent HpX HfX HnX)
    as (w1 & d1 & l1 & Ha1 & Hwf1 & Hv1).
  rewrite <- view_fst in Hin.
  destruct (first_occurrence _ _ Hin) as (vs1 & u & vs2 & Evs & Hu & Hout).
  rewrite Evs, (placeAfter_split _ _ _ _ _ Hout Hu) in Hv1.
  assert (a ∈ ID <$> l1) as Hin1.
  { rewrite <- view_fst, Hv1, fmap_app, fmap_cons, Hu.
    apply elem_of_app. right. left. }
  pose proof (addToCRDT_keys _ _ _ _ _ _ Ha1 (not_eq_sym Hxy) HfY) as HfY1.
  destruct (insert_normal_spec w1 Y d1 l1 a Hwf1 Hin1 Hsent HpY HfY1 HnY)
    as (w2 & d2 & l2 & Ha2 & Hwf2 & Hv2).
  rewrite Hv1, (placeAfter_split _ _ _ _ _ Hout Hu) in Hv2.
  destruct (skipPast_twice (view X) (view Y) vs2 Hcl) as (t1 & t2 & t3 & Et).
  rewrite Et in Hv2.
  exists d2, (ID <$> l2). split; [|split].
  - unfold applyTwo. rewrite Ha1. cbn. rewrite Ha2. done.
  - unfold walkIDs. by rewrite (chained_walk _ _ (wf_chained _ _ Hwf2)).
  - exists (vs1.*1 ++ u.1 :: t1.*1), t2.*1, t3.*1.
    rewrite <- view_fst, Hv2.
    repeat (rewrite fmap_app || rewrite fmap_cons).
    cbn. by rewrite <- app_assoc.
Qed.

End SameClient.

(** ** The theorems at concrete documents *)

Section Instances.
Import Scenario.

Lemma docA_chained : chained docA [opA "s"].
Proof.
  split.
  - cbn. split; [reflexivity|]. split; reflexivity.
  - apply NoDup_singleton.
  - reflexivity.
Defined.

Lemma docA_wellFormed : wellFormed docA [opA "s"].
Proof.
  split.
  - exact docA_chained.
  - intros k [v Hk]. cbn in Hk.
    destruct (decide (k = "11")) as [->|Hne]; [left|].
    by rewrite lookup_singleton_ne in Hk.
  - apply Forall_singleton. split; [reflexivity|by vm_compute].
Defined.


(** C5 as stated fails. Identifiers are a counter followed by a worker
    number, so a worker can mint the sentinel "12345": worker 5 does at
    counter 1234, worker 2345 with its first insert. After that insert
    the document holds the element A = "12345" with empty [NextID]. The
    inserts "22" and "23" name A as reference, have different clients
    and fresh numeric identifiers. Both orders return, but the two
    documents differ, and in neither is "23" walked after A: each
    insert was put in front of the walk, and A still has no
    successor. *)
Lemma tie_break_fails_at_sentinel_id :
  mintOpID 1234 5 = INITIAL_ID
  ∧ run (initWorker 2345) [EvNewSession "s"; EvAddRight INITIAL_ID "a" "s"]
    = Ok (mkWorker 2345 {[ "s" := docZ ]} [opZ])
  ∧ Elements docZ !! ID opZ = Some opZ ∧ NextID opZ = ""
  ∧ PrevID opS2 = ID opZ ∧ PrevID opS3 = ID opZ
  ∧ ClientID opS2 ≠ ClientID opS3
  ∧ numericID (ID opS2) ∧ numericID (ID opS3)
  ∧ Atoi (ID opS2) < Atoi (ID opS3)
  ∧ Elements docZ !! ID opS2 = None ∧ Elements docZ !! ID opS3 = None
  ∧ ∃ d1 d2,
      applyTwo (holding 2345 docZ) opS3 opS2 docZ = Ok d1
      ∧ applyTwo (holding 2345 docZ) opS2 opS3 docZ = Ok d2
      ∧ d1 ≠ d2
      ∧ walkIDs d1 = Ok ["22"; "23"; "12345"]
      ∧ walkIDs d2 = Ok ["23"; "22"; "12345"]
      ∧ NextID <$> Elements d1 !! ID opZ = Some ""
      ∧ NextID <$> Elements d2 !! ID opZ = Some "".
Proof.
  split; [by vm_compute|]. split; [by vm_compute|].
  split; [reflexivity|]. split; [reflexivity|].
  split; [reflexivity|]. split; [reflexivity|].
  split; [by vm_compute|].
  split; [split; [reflexivity|by vm_compute]|].
  split; [split; [reflexivity|by vm_compute]|].
  split; [by vm_compute|]. split; [reflexivity|]. split; [reflexivity|].
  eexists _, _. split; [vm_compute; reflexivity|].
  split; [vm_compute; reflexivity|].
  assert (∀ d1 d2 k1 k2, walkIDs d1 = Ok k1 → walkIDs d2 = Ok k2 →
            k1 ≠ k2 → d1 ≠ d2) as Hdiff.
  { intros d1 d2 k1 k2 H1 H2 Hk ->. congruence. }
  split; [by apply (Hdiff _ _ ["22"; "23"; "12345"] ["23"; "22"; "12345"])|].
  split; [by vm_compute|]. split; [by vm_compute|].
  split; by vm_compute.
Qed.

Lemma same_client_second_in_front_witness :
  ∃ d' ks, applyTwo (holding 1 docA) (opB "s") (opD "s") docA = Ok d'
           ∧ walkIDs d' = Ok ks ∧ before "13" "12" ks.
Proof.
  apply (same_client_second_in_front (holding 1 docA) docA [opA "s"] "11"
           (opB "s") (opD "s")).
  - exact docA_wellFormed.
  - cbn. left.
  - by vm_compute.
  - reflexivity.
  - reflexivity.
  - reflexivity.
  - split; [reflexivity|by vm_compute].
  - split; [reflexivity|by vm_compute].
  - by vm_compute.
  - reflexivity.
  - reflexivity.
Defined.

Lemma insert_preserves_chain_witness :
  ∃ w' d', addToCRDT (holding 1 docA) (opB "s") docA = Ok (w', d')
    ∧ ∃ l', chained d' l' ∧ walk d' = Ok l'
            ∧ (complete docA [opA "s"] → complete d' l')
            ∧ ∃ stored, Elements d' !! "12" = Some stored
                        ∧ PrevID stored = "11".
Proof.
  eexists _, _. split; [vm_compute; reflexivity|].
  apply (insert_preserves_chain (holding 1 docA) (opB "s") docA [opA "s"]
           (mkWorker 1 {[ "s" := docA ]} [opB "s"])).
  - exact docA_chained.
  - reflexivity.
  - by vm_compute.
  - intros H. reflexivity.
  - vm_compute. reflexivity.
Defined.

(** C2 as stated fails: worker 1 calls [addRight] twice with the
    reference "11"; the calls mint "21" and then "31", and the walk
    visits "31", minted second, before "21". *)
Lemma local_inserts_walked_in_reverse :
  ∃ w1 w2 d2,
    addRight (holding 1 docA) "11" "b" "s" = Ok (w1, ErrNil)
    ∧ addRight w1 "11" "d" "s" = Ok (w2, ErrNil)
    ∧ crdt w2 !! "s" = Some d2
    ∧ walkIDs d2 = Ok ["11"; "31"; "21"]
    ∧ getMessage d2 = Ok "adb"
    ∧ ¬ before "21" "31" ["11"; "31"; "21"].
Proof.
  eexists _, _, _. do 5 (split; [vm_compute; reflexivity|]).
  intros (l1 & l2 & l3 & E).
  destruct l1 as [|? [|? [|? [|? ?]]]]; simplify_eq/=;
    destruct l2 as [|? [|? ?]]; simplify_eq/=.
Qed.

(** C9 as stated fails on the back links: in the document made by
    [opA] and [opB] every element names its walk predecessor; the
    insert of [opC] behind "11" returns, and then the walk visits "21"
    and next "12", whose [PrevID] is still "11". *)
Lemma normal_insert_leaves_back_link :
  ∃ w w' d' l',
    addToCRDT w (opB "s") docA = Ok (w', docAB)
    ∧ walk docAB = Ok [setNextID (opA "s") "12"; opB "s"]
    ∧ doublyLinked [setNextID (opA "s") "12"; opB "s"]
    ∧ addToCRDT w' (opC "s") docAB = Ok (mkWorker 1 ∅ [opB "s"; setNextID (opC "s") "12"], d')
    ∧ walk d' = Ok l'
    ∧ ID <$> l' = ["11"; "21"; "12"]
    ∧ ¬ doublyLinked l'.
Proof.
  exists (initWorker 1). eexists _, _, _.
  split; [vm_compute; reflexivity|]. split; [vm_compute; reflexivity|].
  split.
  { intros [|[|i]] y z Hy Hz; simplify_eq/=. reflexivity. }
  split; [vm_compute; reflexivity|]. split; [vm_compute; reflexivity|].
  split; [reflexivity|].
  intros H. specialize (H 1%nat _ _ eq_refl eq_refl). discriminate H.
Qed.

(** The same divergence end to end: workers 2 and 3 hold the document
    with "11"; each inserts at the sentinel, minting "22" and "23"; each
    then merges the buffer of the other.  Both now hold the same three
    operations and show different texts. *)
Lemma replicas_diverge_after_exchange :
  ∃ w2 w3 w2' w3',
    addRight (holding 2 docA) INITIAL_ID "b" "s" = Ok (w2, ErrNil)
    ∧ addRight (holding 3 docA) INITIAL_ID "c" "s" = Ok (w3, ErrNil)
    ∧ ID <$> localOps w2 = ["22"] ∧ ID <$> localOps w3 = ["23"]
    ∧ ApplyIncomingOps w2 (localOps w3) = Ok (w2', ErrNil)
    ∧ ApplyIncomingOps w3 (localOps w2) = Ok (w3', ErrNil)
    ∧ textOf w2' = Ok "cba" ∧ textOf w3' = Ok "bca".
Proof.
  eexists _, _, _, _. repeat split; vm_compute; reflexivity.
Qed.

End Instances.

(** ** The bound on the loops is enough

    A loop that ends at all ends within [loopBound] turns: a run that
    ends never comes back to a key, and the keys are those of the map.
    So [Hang] stands for a run that does not end. *)

Section Fuel.

Context {V : Type} (els : gmap string V) (nxt : string → option string).
Hypothesis nxt_dom : ∀ k k', nxt k = Some k' → is_Some (els !! k).

Lemma depth_fun k n n' : depth nxt k n → depth nxt k n' → n = n'.
Proof.
  intros H. revert n'. induction H as [k Hk|k k' n Hk H IH]; intros n' H'.
  - inversion H' as [|? ? ? Hk']; [done|congruence].
  - inversion H' as [? Hk'|? k'' m Hk' H'']; [congruence|]. subst.
    assert (k'' = k') as -> by congruence. f_equal. by apply IH.
Qed.

Lemma depth_keys k n :
  depth nxt k n →
  ∃ ks, length ks = n ∧ NoDup ks
        ∧ ∀ j, j ∈ ks → is_Some (els !! j) ∧ ∃ m, (m ≤ n)%nat ∧ depth nxt j m.
Proof.
  induction 1 as [k Hk|k k' n Hk H (ks & Hlen & Hnd & Hks)].
  - exists []. split; [done|]. split; [constructor|].
    intros j Hj. by apply elem_of_nil in Hj.
  - exists (k :: ks). split; [cbn; by rewrite Hlen|]. split.
    + apply NoDup_cons. split; [|done]. intros Hin.
      destruct (Hks k Hin) as (_ & m & Hm & Hd).
      assert (m = S n) by (eapply depth_fun; [exact Hd|by econstructor]). lia.
    + intros j [->|Hj]%elem_of_cons.
      * split; [by eapply nxt_dom|]. exists (S n). split; [lia|by econstructor].
      * destruct (Hks j Hj) as (Hs & m & Hm & Hd). split; [done|].
        exists m. split; [lia|done].
Qed.

Lemma depth_bound k n : depth nxt k n → (n ≤ size els)%nat.
Proof.
  intros (ks & <- & Hnd & Hks)%depth_keys.
  rewrite <- (size_dom (D := gset string) els).
  rewrite <- (size_list_to_set (C := gset string) ks) by done.
  apply subseteq_size. intros j Hj. apply elem_of_list_to_set in Hj.
  apply elem_of_dom. by apply Hks.
Qed.

End Fuel.

Section LoopFuel.

Context (els : gmap string Element) (X : Element) (n : Z).

Lemma loopNext_dom k k' : loopNext els X n k = Some k' → is_Some (els !! k).
Proof. unfold loopNext. destruct (els !! k); [eauto|done]. Qed.

(** A run of the loop that does not hang has a depth below the fuel. *)
Lemma samePlaceLoop_depth fuel : ∀ k p,
  els !! k = Some p →
  samePlaceLoop fuel els X n p (Atoi (NextID p)) ≠ Hang →
  ∃ m, (m < fuel)%nat ∧ depth (loopNext els X n) k m.
Proof.
  induction fuel as [|fuel IH]; intros k p Hk; cbn; [done|].
  assert (loopNext els X n k = None → ∃ m, (m < S fuel)%nat
            ∧ depth (loopNext els X n) k m) as Hstop.
  { intros Hn. exists 0%nat. split; [lia|by constructor]. }
  destruct (n <=? Atoi (NextID p)) eqn:Hle.
  - destruct (els !! NextID p) as [succ|] eqn:Hs.
    + case_bool_decide as Hc.
      * destruct (els !! Itoa (Atoi (NextID p))) as [p'|] eqn:Hp'.
        -- intros Hr. destruct (IH _ _ Hp' Hr) as (m & Hm & Hd).
           exists (S m). split; [lia|]. econstructor; [|exact Hd].
           unfold loopNext. rewrite Hk, Hle, Hs, bool_decide_eq_true_2, Hp'; done.
        -- intros _. apply Hstop. unfold loopNext.
           rewrite Hk, Hle, Hs, bool_decide_eq_true_2, Hp'; done.
      * intros _. apply Hstop. unfold loopNext.
        rewrite Hk, Hle, Hs, bool_decide_eq_false_2; [done|].
        intros H. by apply H.
    + intros _. apply Hstop. unfold loopNext.
      by rewrite Hk, Hle, Hs.
  - intros _. apply Hstop. unfold loopNext. by rewrite Hk, Hle.
Qed.

(** With more fuel than the depth the outcome does not depend on the
    fuel. *)
Lemma samePlaceLoop_enough m : ∀ k p fuel fuel',
  els !! k = Some p → depth (loopNext els X n) k m →
  (m < fuel)%nat → (m < fuel')%nat →
  samePlaceLoop fuel els X n p (Atoi (NextID p))
  = samePlaceLoop fuel' els X n p (Atoi (NextID p)).
Proof.
  induction m as [|m IH]; intros k p fuel fuel' Hk Hd Hf Hf';
    (destruct fuel as [|fuel]; [lia|]); (destruct fuel' as [|fuel']; [lia|]);
    inversion Hd as [? Hn|? k' ? Hn Hd']; subst; cbn;
    unfold loopNext in Hn; rewrite Hk in Hn;
    destruct (n <=? Atoi (NextID p)); try done;
    destruct (els !! NextID p) as [succ|]; try done;
    case_bool_decide; try done;
    destruct (els !! Itoa (Atoi (NextID p))) as [p'|] eqn:Hp'; try done.
  injection Hn as <-. eapply IH; [exact Hp'|exact Hd'|lia..].
Qed.

(** If the loop ends with some fuel, it ends within [loopBound] turns,
    in the same way. *)
Lemma samePlaceLoop_bound k p fuel :
  els !! k = Some p →
  samePlaceLoop fuel els X n p (Atoi (NextID p)) ≠ Hang →
  samePlaceLoop (loopBound els) els X n p (Atoi (NextID p))
  = samePlaceLoop fuel els X n p (Atoi (NextID p)).
Proof.
  intros Hk Hr. destruct (samePlaceLoop_depth _ _ _ Hk Hr) as (m & Hm & Hd).
  eapply samePlaceLoop_enough; [exact Hk|exact Hd| |done].
  pose proof (depth_bound els _ loopNext_dom _ _ Hd). unfold loopBound. lia.
Qed.

End LoopFuel.

Section WalkFuel.

Context (els : gmap string Element).

Lemma walkNext_dom k k' : walkNext els k = Some k' → is_Some (els !! k).
Proof. unfold walkNext. destruct (els !! k); [eauto|done]. Qed.

Lemma walkFrom_depth fuel : ∀ k,
  walkFrom fuel els k ≠ Hang →
  ∃ m, (m ≤ fuel)%nat ∧ depth (walkNext els) k m.
Proof.
  assert (∀ k f, els !! k = None →
            ∃ m, (m ≤ f)%nat ∧ depth (walkNext els) k m) as Hstop.
  { intros k f Hk. exists 0%nat. split; [lia|]. constructor.
    unfold walkNext. by rewrite Hk. }
  induction fuel as [|fuel IH]; intros k; cbn;
    destruct (els !! k) as [e|] eqn:Hk; eauto; [done|].
  intros Hr. destruct (IH (NextID e)) as (m & Hm & Hd).
  { intros Hh. apply Hr. by rewrite Hh. }
  exists (S m). split; [lia|]. econstructor; [|exact Hd].
  unfold walkNext. by rewrite Hk.
Qed.

Lemma walkFrom_enough m : ∀ k fuel fuel',
  depth (walkNext els) k m → (m ≤ fuel)%nat → (m ≤ fuel')%nat →
  walkFrom fuel els k = walkFrom fuel' els k.
Proof.
  induction m as [|m IH]; intros k fuel fuel' Hd Hf Hf';
    inversion Hd as [? Hn|? k' ? Hn Hd']; subst;
    unfold walkNext in Hn; destruct (els !! k) as [e|] eqn:Hk; try done.
  - destruct fuel, fuel'; cbn; by rewrite Hk.
  - destruct fuel as [|fuel]; [lia|]. destruct fuel' as [|fuel']; [lia|].
    cbn. rewrite Hk. cbn in Hn. injection Hn as <-.
    rewrite (IH (NextID e) fuel fuel'); [done|done|lia..].
Qed.

(** If the walk ends with some fuel, it ends within [loopBound]
    elements, with the same list. *)
Lemma walkFrom_bound k fuel :
  walkFrom fuel els k ≠ Hang →
  walkFrom (loopBound els) els k = walkFrom fuel els k.
Proof.
  intros Hr. destruct (walkFrom_depth _ _ Hr) as (m & Hm & Hd).
  eapply walkFrom_enough; [exact Hd| |done].
  pose proof (depth_bound els _ walkNext_dom _ _ Hd). unfold loopBound. lia.
Qed.

End WalkFuel.


(** * Further properties of the resolver *)

Section InsertEffects.

Implicit Types (w : Worker) (d : CRDT) (e : Element) (l : list Element).

Lemma addToCRDT_dom w e d w' d' :
  addToCRDT w e d = Ok (w', d') →
  dom (Elements d') = {[ID e]} ∪ dom (Elements d).
Proof.
  intros H.
  apply addToCRDT_Ok_inv in H as [(_ & H)|[(_ & _ & f & Hf & H)|
    (_ & _ & p & q & _ & Hq & H)]]; injection H as -> ->; cbn;
    rewrite !dom_insert_L; [done|..]; f_equal;
    apply subseteq_union_1_L, singleton_subseteq_l, elem_of_dom; eauto.
Qed.

Lemma addToCRDT_counter w e d w' d' :
  addToCRDT w e d = Ok (w', d') → NextOpNumber d' = incr (NextOpNumber d).
Proof.
  intros H.
  by apply addToCRDT_Ok_inv in H as [(_ & H)|[(_ & _ & f & Hf & H)|
    (_ & _ & p & q & _ & Hq & H)]]; injection H as -> ->.
Qed.

(** X1. An insert that returns adds exactly one key, the new identifier,
    to the element map (no element is removed), and advances the counter
    by one, on the local path and on the merge path alike. *)
Theorem insert_grows_by_one w e d w' d' :
  addToCRDT w e d = Ok (w', d') →
  dom (Elements d') = {[ID e]} ∪ dom (Elements d)
  ∧ NextOpNumber d' = incr (NextOpNumber d).
Proof.
  intros H. split; [by eapply addToCRDT_dom|by eapply addToCRDT_counter].
Qed.

Lemma insert_grows_by_one_witness :
  ∃ w' d', addToCRDT (Scenario.holding 1 Scenario.docA) (Scenario.opB "s")
             Scenario.docA = Ok (w', d')
    ∧ dom (Elements d') = {[ "12" ]} ∪ dom (Elements Scenario.docA)
    ∧ NextOpNumber d' = 3.
Proof.
  eexists _, _. split; [vm_compute; reflexivity|].
  apply (insert_grows_by_one (Scenario.holding 1 Scenario.docA)
           (Scenario.opB "s") Scenario.docA
           (mkWorker 1 {[ "s" := Scenario.docA ]} [Scenario.opB "s"])).
  vm_compute. reflexivity.
Defined.

(** X2. An insert that returns leaves the payload (session, client,
    deleted flag, identifier, text) of every other stored element as it
    was; of its links, each one either stays or now names the new
    element. *)
Theorem insert_keeps_payload w e d w' d' k x :
  addToCRDT w e d = Ok (w', d') →
  Elements d !! k = Some x → k ≠ ID e →
  ∃ x', Elements d' !! k = Some x' ∧ payload x' = payload x
        ∧ (NextID x' = NextID x ∨ NextID x' = ID e)
        ∧ (PrevID x' = PrevID x ∨ PrevID x' = ID e).
Proof.
  intros H Hk Hne.
  apply addToCRDT_Ok_inv in H as [(Hemp & H)|[(_ & _ & f & Hf & H)|
    (_ & _ & p & q & _ & Hq & H)]]; injection H as -> ->; cbn;
    rewrite lookup_insert_ne by done.
  - rewrite Hemp in Hk. by rewrite lookup_empty in Hk.
  - destruct (decide (k = CrdtFirstID d)) as [->|Hkf].
    + rewrite lookup_insert_eq. rewrite Hf in Hk. injection Hk as ->.
      eexists. split; [done|]. cbn. eauto.
    + rewrite lookup_insert_ne by done. eauto 10.
  - destruct (decide (k = p)) as [->|Hkp].
    + rewrite lookup_insert_eq. rewrite Hq in Hk. injection Hk as ->.
      eexists. split; [done|]. cbn. eauto.
    + rewrite lookup_insert_ne by done. eauto 10.
Qed.

Lemma insert_keeps_payload_witness :
  ∃ w' d' x',
    addToCRDT (Scenario.holding 1 Scenario.docA) (Scenario.opB "s")
      Scenario.docA = Ok (w', d')
    ∧ Elements d' !! "11" = Some x'
    ∧ payload x' = payload (Scenario.opA "s")
    ∧ (NextID x' = "" ∨ NextID x' = "12")
    ∧ (PrevID x' = INITIAL_ID ∨ PrevID x' = "12").
Proof.
  assert (addToCRDT (Scenario.holding 1 Scenario.docA) (Scenario.opB "s")
            Scenario.docA
          = Ok (mkWorker 1 {[ "s" := Scenario.docA ]} [Scenario.opB "s"],
                Scenario.docAB)) as Ha by (vm_compute; reflexivity).
  destruct (insert_keeps_payload _ _ _ _ _ "11" (Scenario.opA "s") Ha
              ltac:(reflexivity) ltac:(by vm_compute)) as (x' & H1 & H2 & H3 & H4).
  eexists _, _, x'. split; [exact Ha|]. done.
Defined.

End InsertEffects.

(** ** Where the text changes *)

Section TextEffects.

Implicit Types (w : Worker) (d : CRDT) (e : Element) (l : list Element).

Lemma append_empty_r (a : string) : a +:+ "" = a.
Proof.
  induction a as [|c a IH]; [done|]. by rewrite append_cons, IH.
Qed.

Lemma append_assoc (a b c : string) : (a +:+ b) +:+ c = a +:+ (b +:+ c).
Proof.
  induction a as [|x a IH]; [done|]. by rewrite !append_cons, IH.
Qed.

Lemma concatText_cons e l : concatText (e :: l) = Text e +:+ concatText l.
Proof. reflexivity. Qed.

Lemma concatText_app l1 l2 :
  concatText (l1 ++ l2) = concatText l1 +:+ concatText l2.
Proof.
  induction l1 as [|e l1 IH]; [done|].
  by rewrite <- app_comm_cons, !concatText_cons, IH, append_assoc.
Qed.

Lemma chained_getMessage d l : chained d l → getMessage d = Ok (concatText l).
Proof. intros H. unfold getMessage. by rewrite (chained_walk _ _ H). Qed.

Lemma chained_walkIDs d l : chained d l → walkIDs d = Ok (ID <$> l).
Proof. intros H. unfold walkIDs. by rewrite (chained_walk _ _ H). Qed.

(** X3. On a document without elements an insert becomes the first
    element whatever reference it names, and is stored with the
    [NextID] it came with. The text is then the text of the element,
    unless that [NextID] is the element's own identifier: then the walk
    of [getMessage] never ends. *)
Theorem first_entry_ignores_reference w e d :
  Elements d = ∅ →
  ∃ w' d', addToCRDT w e d = Ok (w', d')
    ∧ CrdtFirstID d' = ID e ∧ Elements d' = {[ ID e := e ]}
    ∧ getMessage d'
      = if bool_decide (NextID e = ID e) then Hang else Ok (Text e).
Proof.
  intros Hemp. eexists _, _. split; [by apply addToCRDT_first|].
  cbn. rewrite copy_eq, Hemp, insert_empty. split; [done|]. split; [done|].
  unfold getMessage, walk, loopBound. cbn. rewrite map_size_singleton. cbn.
  rewrite lookup_singleton_eq. cbn. case_bool_decide as Hn.
  - rewrite Hn, lookup_singleton_eq. cbn. by rewrite Hn, lookup_singleton_eq.
  - rewrite lookup_singleton_ne by done. cbn. by rewrite append_empty_r.
Qed.

Lemma first_entry_ignores_reference_witness :
  Elements newCRDT = ∅
  ∧ ∃ w' d', addToCRDT (initWorker 1) Scenario.opU newCRDT = Ok (w', d')
      ∧ CrdtFirstID d' = "21" ∧ Elements d' = {[ "21" := Scenario.opU ]}
      ∧ getMessage d' = Ok "u".
Proof.
  split; [reflexivity|].
  exact (first_entry_ignores_reference (initWorker 1) Scenario.opU newCRDT
           eq_refl).
Defined.

(** X4. On a document whose walk is not empty, an insert of a fresh
    identifier at the sentinel returns and becomes the first element:
    the walk is the new identifier followed by the old walk and the text
    is the new content followed by the old text. *)
Theorem sentinel_insert_prepends w e d l :
  chained d l → l ≠ [] → PrevID e = INITIAL_ID →
  Elements d !! ID e = None → ID e ≠ "" →
  ∃ w' d', addToCRDT w e d = Ok (w', d')
    ∧ CrdtFirstID d' = ID e
    ∧ walkIDs d' = Ok (ID e :: (ID <$> l))
    ∧ getMessage d' = Ok (Text e +:+ concatText l).
Proof.
  intros Hch Hl Hp Hfresh Hne.
  destruct l as [|f l2]; [done|].
  pose proof (chained_seg _ _ Hch) as Hs. cbn in Hs. destruct Hs as (Hf & _ & _).
  destruct (chained_sentinel w e d _ f Hch Hfresh Hne Hf) as (l2' & El & Hc & _).
  injection El as <-.
  eexists _, _. split.
  { rewrite (addToCRDT_sentinel w e d _ _ _ Hf Hp Hf).
    apply f_equal, surjective_pairing. }
  split; [done|]. split.
  - by rewrite (chained_walkIDs _ _ Hc).
  - by rewrite (chained_getMessage _ _ Hc).
Qed.

Lemma sentinel_insert_prepends_witness :
  ∃ w' d', addToCRDT (initWorker 2) Scenario.opS2 Scenario.docA = Ok (w', d')
    ∧ CrdtFirstID d' = "22"
    ∧ walkIDs d' = Ok ["22"; "11"]
    ∧ getMessage d' = Ok "ba".
Proof.
  apply (sentinel_insert_prepends (initWorker 2) Scenario.opS2 Scenario.docA
           [Scenario.opA "s"]).
  - exact docA_chained.
  - by vm_compute.
  - reflexivity.
  - reflexivity.
  - by vm_compute.
Defined.

Lemma insert_direct w e d l1 A rest :
  chained d (l1 ++ A :: rest) → PrevID e = ID A → ID A ≠ INITIAL_ID →
  Elements d !! ID e = None → ID e ≠ "" → staysAtAnchor e rest →
  ∃ w' d', addToCRDT w e d = Ok (w', d')
    ∧ chained d' (l1 ++ setNextID A (ID e) :: setNextID e (NextID A) :: rest)
    ∧ localOps w' = localOps w ++ [setNextID e (NextID A)].
Proof.
  intros Hch Hp Hsent Hfresh Hne Hstay.
  pose proof Hch as [Hs Hnd Hemp].
  assert (Elements d !! ID A = Some A) as HA.
  { eapply seg_lookup; [exact Hs|]. apply elem_of_app. right. left. }
  apply seg_app in Hs as (m & _ & Hs2). cbn in Hs2. destruct Hs2 as (_ & _ & Hrest).
  assert (samePlaceInsertCheck e (PrevID e) (ID e) d = Ok (ID A)) as Hstop.
  { unfold samePlaceInsertCheck. rewrite Hp, HA. case_bool_decide as Hn; [|done].
    unfold loopBound. destruct rest as [|s rest]; [cbn in Hrest; congruence|].
    cbn in Hrest. destruct Hrest as (Hk & Hid & _). cbn in Hstay.
    destruct Hstay as [Hc|Hlt].
    - by eapply samePlaceLoop_same_client.
    - apply samePlaceLoop_stop. rewrite <- Hid. lia. }
  eexists _, _. split.
  - rewrite (addToCRDT_normal w e d _ _ _ _ HA ltac:(congruence) Hstop HA).
    apply f_equal, surjective_pairing.
  - split; [|done].
    by destruct (chained_splice_on w e d l1 A rest Hch Hfresh Hne) as [Hc _].
Qed.



End TextEffects.

(** ** Batches *)

Section Batches.

Implicit Types (w : Worker) (d : CRDT) (op : Element) (ops : list Element).

Lemma skipped_apply w op : skipped w op → applyIncomingOp w op = Ok w.
Proof.
  unfold skipped, applyIncomingOp.
  destruct (crdt w !! SessionID op) as [d|]; [|done]. by intros [x ->].
Qed.

Lemma applyIncomingOp_crdt w op w' :
  applyIncomingOp w op = Ok w' →
  w' = w
  ∨ ∃ d w1 d', crdt w !! SessionID op = Some d ∧ Elements d !! ID op = None
      ∧ addToCRDT w op d = Ok (w1, d')
      ∧ w' = storeCRDT w1 (SessionID op) d'.
Proof.
  unfold applyIncomingOp.
  destruct (crdt w !! SessionID op) as [d|] eqn:Hd; [|intros [= <-]; by left].
  destruct (Elements d !! ID op) eqn:Hx; [intros [= <-]; by left|].
  destruct (addToCRDT w op d) as [[w1 d']| |] eqn:Ha; [|done..].
  cbn. intros [= <-]. right. eauto 10.
Qed.

Lemma skipped_preserved w op op' w' :
  skipped w op → applyIncomingOp w op' = Ok w' → skipped w' op.
Proof.
  intros Hsk [->|(d & w1 & d' & Hd & Hx & Ha & ->)]%applyIncomingOp_crdt; [done|].
  unfold skipped in *. cbn.
  destruct (addToCRDT_stored _ _ _ _ _ Ha) as (_ & _ & _ & _ & Hc). rewrite Hc.
  destruct (decide (SessionID op = SessionID op')) as [E|Hne].
  - rewrite E, lookup_insert_eq. rewrite E, Hd in Hsk.
    apply elem_of_dom. rewrite (addToCRDT_dom _ _ _ _ _ Ha).
    apply elem_of_union. right. by apply elem_of_dom.
  - by rewrite lookup_insert_ne.
Qed.

Lemma skipped_after w op w' : applyIncomingOp w op = Ok w' → skipped w' op.
Proof.
  intros H. pose proof (applyIncomingOp_again _ _ _ H) as H'.
  unfold skipped. unfold applyIncomingOp in H'.
  destruct (crdt w' !! SessionID op) as [d|]; [|done].
  destruct (Elements d !! ID op) eqn:Hx; [eauto|].
  exfalso. destruct (addToCRDT w' op d) as [[w1 d1]| |] eqn:Ha; try done.
  cbn in H'. injection H' as H'.
  destruct (addToCRDT_stored _ _ _ _ _ Ha) as (n & _ & Hl & _).
  assert (length (localOps w') = length (localOps w1)) as Hlen.
  { by rewrite <- H' at 1. }
  rewrite Hl, length_app in Hlen. cbn in Hlen. lia.
Qed.

Lemma skipped_preserved_batch ops : ∀ w w' op,
  skipped w op → applyIncomingOps w ops = Ok w' → skipped w' op.
Proof.
  induction ops as [|op' ops IH]; intros w w' op Hsk; cbn.
  - by intros [= <-].
  - destruct (applyIncomingOp w op') as [w1| |] eqn:H1; [|done..]. cbn.
    intros H2. eapply IH; [|exact H2]. by eapply skipped_preserved.
Qed.

Lemma all_skipped ops : ∀ w,
  Forall (skipped w) ops → applyIncomingOps w ops = Ok w.
Proof.
  induction ops as [|op ops IH]; intros w Hall; cbn; [done|].
  apply Forall_cons in Hall as [H1 H2]. rewrite (skipped_apply _ _ H1). cbn.
  by apply IH.
Qed.

Lemma skipped_after_batch ops : ∀ w w',
  applyIncomingOps w ops = Ok w' → Forall (skipped w') ops.
Proof.
  induction ops as [|op ops IH]; intros w w'; cbn; [constructor|].
  destruct (applyIncomingOp w op) as [w1| |] eqn:H1; [|done..]. cbn.
  intros H2. constructor; [|by eapply IH].
  eapply skipped_preserved_batch; [|exact H2]. by eapply skipped_after.
Qed.

Lemma applyIncomingOps_app ops1 ops2 : ∀ w,
  applyIncomingOps w (ops1 ++ ops2)
  = applyIncomingOps w ops1 ≫= λ w', applyIncomingOps w' ops2.
Proof.
  induction ops1 as [|op ops1 IH]; intros w; cbn; [done|].
  destruct (applyIncomingOp w op) as [w1| |]; cbn; [apply IH|done..].
Qed.

(** X6. Delivering a whole batch twice through [ApplyIncomingOps] has
    the outcome of delivering it once, whatever sessions and duplicates
    the batch holds: the second pass finds every operation either of an
    unknown session or already stored and changes nothing. *)
Theorem merge_batch_idempotent w ops :
  ApplyIncomingOps w (ops ++ ops) = ApplyIncomingOps w ops.
Proof.
  unfold ApplyIncomingOps. rewrite applyIncomingOps_app.
  destruct (applyIncomingOps w ops) as [w'| |] eqn:H; [|done..]. cbn.
  by rewrite (all_skipped _ _ (skipped_after_batch _ _ _ H)).
Qed.

(** X7. A merge that returns never adds or drops a session and never
    changes the worker's identifier; the document of a session that no
    operation of the batch names is left as it was. *)
Theorem merge_keeps_sessions ops : ∀ w w',
  applyIncomingOps w ops = Ok w' →
  workerID w' = workerID w
  ∧ dom (crdt w') = dom (crdt w)
  ∧ ∀ s, (∀ op, op ∈ ops → SessionID op ≠ s) → crdt w' !! s = crdt w !! s.
Proof.
  induction ops as [|op ops IH]; intros w w'; cbn.
  - by intros [= <-].
  - destruct (applyIncomingOp w op) as [w1| |] eqn:H1; [|done..]. cbn.
    intros H2. destruct (IH _ _ H2) as (Hw & Hdom & Hother).
    assert (workerID w1 = workerID w ∧ dom (crdt w1) = dom (crdt w)
            ∧ ∀ s, SessionID op ≠ s → crdt w1 !! s = crdt w !! s)
      as (Hw1 & Hdom1 & Hother1).
    { apply applyIncomingOp_crdt in H1
        as [->|(d & w2 & d' & Hd & Hx & Ha & ->)]; [done|].
      destruct (addToCRDT_stored _ _ _ _ _ Ha) as (_ & _ & _ & Hwid & Hc).
      cbn. rewrite Hc. split; [done|]. split.
      - rewrite dom_insert_L. apply subseteq_union_1_L, singleton_subseteq_l.
        apply elem_of_dom. eauto.
      - intros s Hs. by rewrite lookup_insert_ne. }
    split; [congruence|]. split; [congruence|].
    intros s Hs. rewrite Hother, Hother1; [done|..].
    + apply Hs. left.
    + intros o Ho. apply Hs. by right.
Qed.

Lemma merge_keeps_sessions_witness :
  ∃ w', applyIncomingOps (Scenario.holding 1 Scenario.docA) [Scenario.opS2] = Ok w'
    ∧ workerID w' = 1
    ∧ dom (crdt w') = dom (crdt (Scenario.holding 1 Scenario.docA))
    ∧ ∀ s, (∀ op, op ∈ [Scenario.opS2] → SessionID op ≠ s)
        → crdt w' !! s = crdt (Scenario.holding 1 Scenario.docA) !! s.
Proof.
  eexists. split; [vm_compute; reflexivity|].
  apply (merge_keeps_sessions [Scenario.opS2] (Scenario.holding 1 Scenario.docA)).
  vm_compute. reflexivity.
Defined.

End Batches.

(** ** Replaying the buffer *)

Section Replay.

Implicit Types (w p : Worker) (d : CRDT) (e : Element).

Lemma samePlaceLoop_client fuel els e e' : ∀ n prevOp m,
  ClientID e' = ClientID e →
  samePlaceLoop fuel els e' n prevOp m = samePlaceLoop fuel els e n prevOp m.
Proof.
  induction fuel as [|fuel IH]; intros n prevOp m Hc; cbn; [done|].
  destruct (n <=? m); [|done]. destruct (els !! NextID prevOp); [|done].
  rewrite Hc. case_bool_decide; [|done].
  destruct (els !! Itoa m); [|done]. by apply IH.
Qed.

Lemma samePlaceInsertCheck_client e e' prevID opID d :
  ClientID e' = ClientID e →
  samePlaceInsertCheck e' prevID opID d = samePlaceInsertCheck e prevID opID d.
Proof.
  intros Hc. unfold samePlaceInsertCheck. destruct (Elements d !! prevID); [|done].
  case_bool_decide; [|done]. by apply samePlaceLoop_client.
Qed.

(** The copy that an insert leaves in the buffer, applied to the
    document the insert started from, gives the document the insert
    gave. *)
Lemma addToCRDT_replay w e d w1 d1 n p :
  addToCRDT w e d = Ok (w1, d1) →
  localOps w1 = localOps w ++ [setNextID e n] →
  ∃ p1, addToCRDT p (setNextID e n) d = Ok (p1, d1)
        ∧ crdt p1 = crdt p ∧ workerID p1 = workerID p
        ∧ localOps p1 = localOps p ++ [setNextID e n].
Proof.
  intros Ha Hl.
  assert (∀ x, localOps w ++ [x] = localOps w ++ [setNextID e n] →
               NextID x = n) as Hn.
  { intros x Hx. apply app_inj_tail in Hx as [_ ->]. done. }
  apply addToCRDT_Ok_inv in Ha as [(Hemp & H)|[(Hne & Hp & f & Hf & H)|
    (Hne & Hp & k & q & Hs & Hq & H)]]; injection H as -> ->;
    cbn in Hl; apply Hn in Hl; cbn in Hl; subst n.
  - eexists. split.
    { rewrite (addToCRDT_first p _ d Hemp). apply f_equal, surjective_pairing. }
    by cbn.
  - eexists. split.
    { rewrite (addToCRDT_sentinel p (setNextID e (CrdtFirstID d)) d _ _ _
                 Hf Hp Hf).
      apply f_equal, surjective_pairing. }
    by cbn.
  - eexists. split.
    { rewrite (addToCRDT_normal p (setNextID e (NextID q)) d _ _ k q Hq Hp);
        [apply f_equal, surjective_pairing| |done].
      cbn. by rewrite (samePlaceInsertCheck_client e). }
    by cbn.
Qed.

Lemma replay_general s cmds : ∀ w p d w',
  crdt w !! s = Some d → crdt p !! s = Some d →
  localEdits w s cmds = Ok w' → mintedFresh w s cmds →
  ∃ L p', localOps w' = localOps w ++ L
          ∧ applyIncomingOps p L = Ok p'
          ∧ crdt p' !! s = crdt w' !! s
          ∧ is_Some (crdt w' !! s).
Proof.
  induction cmds as [|[prevID content] cmds IH]; intros w p d w' Hw Hp; cbn.
  - intros [= <-] _. exists [], p. rewrite app_nil_r. cbn.
    rewrite Hw, Hp. eauto.
  - rewrite Hw. unfold addRight at 1 2. rewrite Hw.
    destruct (prevIDExists w prevID s) eqn:Hex; cbn.
    + match goal with |- context [addToCRDT w ?x d] => set (e := x) end.
      destruct (addToCRDT w e d) as [[w1 d1]| |] eqn:Ha; [|done..]. cbn.
      intros Hrun [Hfresh Hrest]. specialize (Hfresh eq_refl).
      destruct (addToCRDT_stored _ _ _ _ _ Ha) as (n & _ & Hl & _ & Hc).
      destruct (addToCRDT_replay _ _ _ _ _ n p Ha Hl)
        as (p1 & Hap & Hcp & _ & _).
      destruct (IH (storeCRDT w1 s d1) (storeCRDT p1 s d1) d1 w')
        as (L & p' & HL & Happ & Heq & Hsome);
        [cbn; by rewrite lookup_insert_eq..|done|done|].
      exists (setNextID e n :: L), p'. split; [|split; [|done]].
      * rewrite HL. cbn. rewrite Hl. by rewrite <- app_assoc.
      * cbn. unfold applyIncomingOp. cbn. rewrite Hp, Hfresh, Hap. cbn. done.
    + intros Hrun [_ Hrest]. by eapply IH.
Qed.

(** X8. A worker with an empty buffer makes a series of [addRight]
    calls on a session, each minting an identifier that is new to the
    document; a peer holds the document the series started from. Then
    the peer's merge of the worker's buffer returns, and the peer's
    document of the session is the worker's, field for field. *)
Theorem replay_local_edits s cmds w p d w' :
  crdt w !! s = Some d → crdt p !! s = Some d → localOps w = [] →
  localEdits w s cmds = Ok w' → mintedFresh w s cmds →
  ∃ p', ApplyIncomingOps p (localOps w') = Ok (p', ErrNil)
        ∧ crdt p' !! s = crdt w' !! s ∧ is_Some (crdt w' !! s).
Proof.
  intros Hw Hp Hb Hrun Hfresh.
  destruct (replay_general s cmds w p d w' Hw Hp Hrun Hfresh)
    as (L & p' & HL & Happ & Heq & Hsome).
  rewrite Hb in HL. cbn in HL. subst L.
  exists p'. unfold ApplyIncomingOps. by rewrite Happ.
Qed.

End Replay.

(** ** The tie-break on the walk *)

Section TieBreak.

Implicit Types (w : Worker) (d : CRDT) (e : Element) (l : list Element).
Implicit Types (v u : string * string) (vs acc : list (string * string)).












End TieBreak.

(** ** Snapshots from peers *)

Section Snapshots.
Import Scenario.

Lemma getSessionFrom_none w s peers :
  Forall (cannotSupply s) peers → getSessionFrom w s peers = w.
Proof.
  induction 1 as [|peer peers Hp _ IH]; cbn; [done|].
  destruct peer as [pw|]; [|done]. cbn in Hp. unfold SendCRDT. by rewrite Hp.
Qed.

(** X11. [getSession] installs the document of the first peer, in call
    order, that answers and holds the session: afterwards the worker
    holds that very document for the session and shows the peer's text,
    its other sessions, its buffer and its identifier are untouched; the
    peers asked before (unreachable, or without the session) and the
    peers behind play no part. *)
Theorem getSession_first_holder w s pre pw post d :
  Forall (cannotSupply s) pre → crdt pw !! s = Some d →
  let w' := getSessionFrom w s (pre ++ Some pw :: post) in
  crdt w' !! s = Some d
  ∧ (∀ s', s' ≠ s → crdt w' !! s' = crdt w !! s')
  ∧ localOps w' = localOps w ∧ workerID w' = workerID w.
Proof.
  intros Hpre Hd. cbn.
  assert (getSessionFrom w s (pre ++ Some pw :: post) = getSession w s d) as ->.
  { induction Hpre as [|peer pre Hp _ IH]; cbn.
    - unfold SendCRDT. by rewrite Hd.
    - destruct peer as [qw|]; [|done]. cbn in Hp. unfold SendCRDT at 1.
      by rewrite Hp. }
  cbn. rewrite lookup_insert_eq. split; [done|]. split; [|done].
  intros s' Hs'. by rewrite lookup_insert_ne.
Qed.

Lemma getSession_first_holder_witness :
  let w' := getSessionFrom (initWorker 3) "s"
              ([None; Some (initWorker 2)] ++ Some (holding 1 docAB) :: []) in
  crdt w' !! "s" = Some docAB
  ∧ (∀ s', s' ≠ "s" → crdt w' !! s' = crdt (initWorker 3) !! s')
  ∧ localOps w' = localOps (initWorker 3) ∧ workerID w' = workerID (initWorker 3).
Proof.
  apply (getSession_first_holder (initWorker 3) "s" [None; Some (initWorker 2)]
           (holding 1 docAB) [] docAB).
  - repeat constructor.
  - reflexivity.
Defined.

(** X12. When no peer can supply the session (each is unreachable or
    answers with the error of [SendCRDT]), [getSession] leaves the
    worker exactly as it was: nothing is installed and a document the
    worker already holds for the session stays. *)
Theorem getSession_no_holder w s peers :
  Forall (cannotSupply s) peers → getSessionFrom w s peers = w.
Proof. apply getSessionFrom_none. Qed.

Lemma getSession_no_holder_witness :
  getSessionFrom (holding 1 docA) "s" [None; Some (initWorker 2)]
  = holding 1 docA.
Proof.
  apply (getSession_no_holder (holding 1 docA) "s" [None; Some (initWorker 2)]).
  repeat constructor.
Defined.

End Snapshots.

(** ** Further instances *)

Section MoreInstances.
Import Scenario.

Lemma replay_local_edits_witness :
  ∃ w' p',
    localEdits (holding 1 docA) "s" [("11", "b"); ("11", "d")] = Ok w'
    ∧ ApplyIncomingOps (holding 2 docA) (localOps w') = Ok (p', ErrNil)
    ∧ crdt p' !! "s" = crdt w' !! "s" ∧ is_Some (crdt w' !! "s").
Proof.
  eexists.
  assert (localEdits (holding 1 docA) "s" [("11", "b"); ("11", "d")] = Ok _)
    as Hrun by (vm_compute; reflexivity).
  destruct (replay_local_edits "s" [("11", "b"); ("11", "d")]
              (holding 1 docA) (holding 2 docA) docA _
              eq_refl eq_refl eq_refl Hrun) as (p' & H1 & H2 & H3).
  { vm_compute. repeat split; intros; reflexivity. }
  exists p'. split; [exact Hrun|]. done.
Defined.


End MoreInstances.

(** ** Minted identifiers as numbers *)

Section Minted.

Local Open Scope N_scope.

Lemma go_ind (P : N → Prop) :
  P 0 → (∀ x, 0 < x → P (x `div` 10) → P x) → ∀ x, P x.
Proof.
  intros H0 Hs x. induction (N.lt_wf_0 x) as [x _ IH].
  destruct (decide (x = 0)) as [->|Hx]; [done|].
  apply Hs; [lia|]. apply IH. apply N.div_lt; lia.
Qed.

Lemma go_append x : ∀ s t, pretty_N_go x s +:+ t = pretty_N_go x (s +:+ t).
Proof.
  induction x as [|x Hx IH] using go_ind; intros s t.
  - by rewrite !pretty_N_go_0.
  - rewrite (pretty_N_go_step x s), (pretty_N_go_step x (s +:+ t)) by done.
    by rewrite IH.
Qed.

Lemma go_length x : ∀ s,
  String.length (pretty_N_go x s)
  = (String.length (pretty_N_go x "") + String.length s)%nat.
Proof.
  induction x as [|x Hx IH] using go_ind; intros s.
  - by rewrite !pretty_N_go_0.
  - rewrite (pretty_N_go_step x s), (pretty_N_go_step x "") by done.
    rewrite IH, (IH (String _ "")). cbn. lia.
Qed.

Lemma digitVal_char d : d < 10 → digitVal (pretty_N_char d) = Some (Z.of_N d).
Proof.
  intros Hd. destruct d as [|p]; [done|].
  do 4 (destruct p as [p|p|]; try done; try lia).
Qed.

Lemma parseUint_digit (c : ascii) (s : string) (n d : Z) :
  digitVal c = Some d → (0 ≤ n)%Z → (0 ≤ d)%Z → (n * 10 + d ≤ maxUint64)%Z →
  parseUint (String c s) n = parseUint s (n * 10 + d)%Z.
Proof.
  intros Hc Hn Hd Hmax. cbn [parseUint]. rewrite Hc.
  unfold maxUint64 in *. unfold cutoff.
  rewrite (proj2 (Z.leb_gt _ _)) by lia.
  by rewrite (proj2 (Z.ltb_ge _ _)) by lia.
Qed.

(** While the number stays within [uint64] the digit loop reads the
    numeral that [Itoa] prints. *)
Lemma parse_go x : ∀ s acc,
  (0 ≤ acc)%Z →
  (acc * 10 ^ Z.of_nat (String.length (pretty_N_go x "")) + Z.of_N x
   ≤ maxUint64)%Z →
  parseUint (pretty_N_go x s) acc
  = parseUint s
      (acc * 10 ^ Z.of_nat (String.length (pretty_N_go x "")) + Z.of_N x)%Z.
Proof.
  induction x as [|x Hx IH] using go_ind; intros s acc Hacc Hmax.
  - rewrite !pretty_N_go_0. cbn. f_equal. lia.
  - rewrite (pretty_N_go_step x "") in Hmax by done.
    rewrite (go_length _ (String _ "")) in Hmax.
    rewrite (pretty_N_go_step x s), (pretty_N_go_step x "") by done.
    rewrite (go_length _ (String _ "")).
    cbn [String.length] in *. rewrite Nat2Z.inj_add in *.
    rewrite Z.pow_add_r in * by lia.
    change (10 ^ Z.of_nat 1)%Z with 10%Z in *.
    set (k := Z.of_nat (String.length (pretty_N_go (x `div` 10) ""))) in *.
    assert (Z.of_N x = 10 * Z.of_N (x `div` 10) + Z.of_N (x `mod` 10))%Z as Hdm.
    { rewrite <- (N2Z.inj_mul 10), <- N2Z.inj_add. f_equal.
      apply N.div_mod. lia. }
    pose proof (N.mod_lt x 10 ltac:(lia)) as Hm.
    assert (0 ≤ acc * 10 ^ k)%Z as Hp.
    { apply Z.mul_nonneg_nonneg; [done|]. apply Z.pow_nonneg. lia. }
    rewrite Z.mul_assoc in *. rewrite Hdm in *.
    pose proof (N2Z.is_nonneg (x `div` 10)) as Hq0.
    pose proof (N2Z.is_nonneg (x `mod` 10)) as Hr0.
    assert (Z.of_N (x `mod` 10) < 10)%Z as Hr1
      by (change 10%Z with (Z.of_N 10); by apply N2Z.inj_lt).
    remember (acc * 10 ^ k)%Z as P eqn:HP.
    remember (Z.of_N (x `div` 10)) as q eqn:Hq.
    remember (Z.of_N (x `mod` 10)) as r eqn:Hr.
    clear Hdm Hx.
    rewrite IH; [|done|rewrite <- HP; lia].
    rewrite <- HP.
    rewrite (parseUint_digit _ _ _ r);
      [f_equal; lia|rewrite Hr; by apply digitVal_char|lia|lia|lia].
Qed.

Lemma go_concat w : ∀ n s,
  0 < w →
  pretty_N_go (n * 10 ^ N.of_nat (String.length (pretty_N_go w "")) + w) s
  = pretty_N_go n (pretty_N_go w s).
Proof.
  induction w as [|w Hw IH] using go_ind; intros n s Hpos; [lia|].
  rewrite (pretty_N_go_step w s), (pretty_N_go_step w "") by done.
  rewrite (go_length _ (String _ "")). cbn [String.length].
  rewrite Nat2N.inj_add, N.pow_add_r. change (10 ^ N.of_nat 1) with 10.
  set (k := N.of_nat (String.length (pretty_N_go (w `div` 10) ""))).
  pose proof (N.div_mod w 10 ltac:(lia)) as Hdm.
  pose proof (N.mod_lt w 10 ltac:(lia)) as Hm.
  assert (n * (10 ^ k * 10) + w = (n * 10 ^ k + w `div` 10) * 10 + w `mod` 10)
    as -> by lia.
  rewrite pretty_N_go_step by lia.
  rewrite <- (N.div_unique _ 10 (n * 10 ^ k + w `div` 10) (w `mod` 10)) by lia.
  rewrite <- (N.mod_unique _ 10 (n * 10 ^ k + w `div` 10) (w `mod` 10)) by lia.
  destruct (decide (w `div` 10 = 0)) as [E|Hne].
  - rewrite E. unfold k. rewrite E, !pretty_N_go_0. cbn.
    by rewrite N.mul_1_r, N.add_0_r.
  - apply IH. lia.
Qed.

Lemma Itoa_pos (z : Z) :
  (0 < z)%Z → Itoa z = pretty_N_go (Z.to_N z) "".
Proof.
  destruct z as [|p|p]; [lia| |lia]. intros _.
  unfold Itoa, pretty, pretty_Z, pretty, pretty_positive, pretty, pretty_N.
  by destruct (decide (N.pos p = 0)).
Qed.

Lemma Atoi_digits (s : string) (v : Z) :
  s ≠ "" → parseUint s 0 = Some v → Atoi s = Z.min v MaxInt.
Proof.
  destruct s as [|c s]; [done|]. intros _ Hp. unfold Atoi.
  assert (digitVal c ≠ None) as Hc.
  { cbn in Hp. by destruct (digitVal c). }
  rewrite (bool_decide_eq_false_2 (c = "-"%char)) by (by intros ->).
  rewrite (bool_decide_eq_false_2 (c = "+"%char)) by (by intros ->).
  cbn [orb]. by rewrite Hp.
Qed.

Lemma go_nonempty x s : 0 < x → pretty_N_go x s ≠ "".
Proof.
  intros Hx E. pose proof (go_length x s) as Hl.
  rewrite (pretty_N_go_step x "") in Hl by done.
  rewrite (go_length _ (String _ "")) in Hl. rewrite E in Hl.
  cbn [String.length] in Hl. lia.
Qed.

Lemma Atoi_Itoa (z : Z) : (0 < z ≤ MaxInt)%Z → Atoi (Itoa z) = z.
Proof.
  intros [Hpos Hmax]. rewrite Itoa_pos by done.
  rewrite (Atoi_digits _ z).
  - lia.
  - apply go_nonempty. lia.
  - rewrite parse_go; [cbn; f_equal; lia|lia|].
    unfold MaxInt, maxUint64 in *. cbn. lia.
Qed.

Lemma mintOpID_Itoa (n w : Z) :
  (0 < n)%Z → (0 ≤ w)%Z →
  mintOpID n w
  = Itoa (n * 10 ^ Z.of_nat (String.length (Itoa w)) + w)%Z.
Proof.
  intros Hn Hw. unfold mintOpID. rewrite (Itoa_pos n) by done.
  rewrite go_append. rewrite append_nil.
  destruct (decide (w = 0%Z)) as [->|Hw0].
  - change (Itoa 0) with "0". cbn [String.length].
    rewrite Itoa_pos by lia.
    replace (Z.to_N (n * 10 ^ Z.of_nat 1 + 0)) with (Z.to_N n * 10 + 0) by lia.
    rewrite (pretty_N_go_step (Z.to_N n * 10 + 0)) by lia.
    rewrite <- (N.div_unique _ 10 (Z.to_N n) 0) by lia.
    by rewrite <- (N.mod_unique _ 10 (Z.to_N n) 0) by lia.
  - rewrite (Itoa_pos w) by lia. rewrite Itoa_pos by nia.
    rewrite <- go_concat by lia. f_equal.
    rewrite Z2N.inj_add, Z2N.inj_mul, Z2N.inj_pow by lia. f_equal. f_equal.
    f_equal. lia.
Qed.

Lemma Itoa_nonempty (z : Z) : Itoa z ≠ "".
Proof.
  destruct z as [|p|p].
  - done.
  - rewrite Itoa_pos by lia. apply go_nonempty. lia.
  - unfold Itoa, pretty, pretty_Z. by rewrite append_cons.
Qed.

Lemma mintOpID_nonempty (n w : Z) : mintOpID n w ≠ "".
Proof.
  unfold mintOpID. pose proof (Itoa_nonempty n) as Hn.
  destruct (Itoa n) as [|c s]; [done|]. by rewrite append_cons.
Qed.

Lemma minted_id_numeric_aux (n w : Z) :
  (0 < n)%Z → (0 ≤ w)%Z →
  (n * 10 ^ Z.of_nat (String.length (Itoa w)) + w ≤ MaxInt)%Z →
  numericID (mintOpID n w)
  ∧ Atoi (mintOpID n w)
    = (n * 10 ^ Z.of_nat (String.length (Itoa w)) + w)%Z.
Proof.
  intros Hn Hw Hmax. rewrite mintOpID_Itoa by done.
  assert (0 < n * 10 ^ Z.of_nat (String.length (Itoa w)) + w)%Z as Hpos.
  { pose proof (Z.pow_pos_nonneg 10 (Z.of_nat (String.length (Itoa w)))
                  ltac:(lia) ltac:(lia)). nia. }
  rewrite Atoi_Itoa by done. split; [|done].
  split; [by rewrite Atoi_Itoa|by rewrite Atoi_Itoa].
Qed.

(** X13. An identifier minted by [addRight] from a counter of at least
    1 and a worker identifier of at least 0 reads, as a number, as the
    counter shifted left by the number of digits of the worker
    identifier plus the worker identifier; while that number fits an
    [int] the identifier is numeric: [Atoi] reads it and [Itoa] prints
    it back. *)
Theorem minted_id_numeric (n w : Z) :
  (0 < n)%Z → (0 ≤ w)%Z →
  (n * 10 ^ Z.of_nat (String.length (Itoa w)) + w ≤ MaxInt)%Z →
  numericID (mintOpID n w)
  ∧ Atoi (mintOpID n w)
    = (n * 10 ^ Z.of_nat (String.length (Itoa w)) + w)%Z.
Proof.
  apply minted_id_numeric_aux.
Qed.

Lemma minted_id_numeric_witness :
  numericID (mintOpID 2 1) ∧ Atoi (mintOpID 2 1) = 21%Z.
Proof.
  apply (minted_id_numeric 2 1); [lia|lia|by vm_compute].
Defined.

(** X14. For one worker the numbers of the minted identifiers grow with
    the counter: a later call of [addRight] on a document mints the
    larger number, as long as the numbers fit an [int]. *)
Theorem minted_ids_grow (n n' w : Z) :
  (0 < n < n')%Z → (0 ≤ w)%Z →
  (n' * 10 ^ Z.of_nat (String.length (Itoa w)) + w ≤ MaxInt)%Z →
  (Atoi (mintOpID n w) < Atoi (mintOpID n' w))%Z.
Proof.
  intros Hn Hw Hmax.
  pose proof (Z.pow_pos_nonneg 10 (Z.of_nat (String.length (Itoa w)))
                ltac:(lia) ltac:(lia)) as Hp.
  destruct (minted_id_numeric_aux n w) as [_ ->]; [lia|done|nia|].
  destruct (minted_id_numeric_aux n' w) as [_ ->]; [lia|done|done|]. nia.
Qed.

Lemma minted_ids_grow_witness : (Atoi (mintOpID 9 1) < Atoi (mintOpID 10 1))%Z.
Proof.
  apply (minted_ids_grow 9 10 1); [lia|lia|by vm_compute].
Defined.

End Minted.

(** ** The local insert on the text *)

Section LocalInsert.
Import Scenario.

(** X15. A worker holds a session whose walk has the anchor [A], with
    an identifier other than the sentinel "12345"; the identifier that
    [addRight] mints is new to the document, and the anchor is last, or
    its successor is of this worker, or the successor's number, as
    [strconv.Atoi] reads it, is smaller than the minted one. Then
    [addRight] with [A] as reference returns nil, the content stands in
    the text right behind the anchor's, and one element, carrying this
    worker's identifier as client, is added to the buffer. *)
Theorem addRight_right_of_anchor (w : Worker) (s content : string) (d : CRDT)
    (l1 : list Element) (A : Element) (rest : list Element) :
  crdt w !! s = Some d → chained d (l1 ++ A :: rest) → ID A ≠ INITIAL_ID →
  Elements d !! mintOpID (NextOpNumber d) (workerID w) = None →
  staysAtAnchor (mintedElement w d (ID A) content s) rest →
  ∃ w' d',
    addRight w (ID A) content s = Ok (w', ErrNil)
    ∧ crdt w' !! s = Some d'
    ∧ getMessage d'
      = Ok (concatText (l1 ++ [A]) +:+ content +:+ concatText rest)
    ∧ localOps w'
      = localOps w
        ++ [setNextID (mintedElement w d (ID A) content s) (NextID A)].
Proof.
  intros Hw Hch Hsent Hfresh Hstay.
  set (e := mintedElement w d (ID A) content s) in *.
  assert (Elements d !! ID A = Some A) as HA.
  { eapply seg_lookup; [exact (chained_seg _ _ Hch)|].
    apply elem_of_app. right. left. }
  destruct (insert_direct w e d l1 A rest Hch eq_refl Hsent Hfresh
              (mintOpID_nonempty _ _) Hstay) as (w1 & d1 & Ha & Hc1 & Hbuf).
  exists (storeCRDT w1 s d1), d1.
  split.
  - unfold addRight, prevIDExists. rewrite Hw, HA.
    rewrite (bool_decide_eq_true_2 (is_Some (Some A))) by eauto.
    cbn [orb negb]. fold (mintedElement w d (ID A) content s). fold e.
    by rewrite Ha.
  - split; [cbn; by rewrite lookup_insert_eq|]. split; [|exact Hbuf].
    rewrite (chained_getMessage _ _ Hc1). rewrite !concatText_app.
    rewrite !concatText_cons. change (concatText []) with "".
    change (Text (setNextID A (ID e))) with (Text A).
    change (Text (setNextID e (NextID A))) with content.
    by rewrite append_empty_r, !append_assoc.
Qed.

Lemma addRight_right_of_anchor_witness :
  ∃ w' d',
    addRight (holding 1 docAB) "11" "d" "s" = Ok (w', ErrNil)
    ∧ crdt w' !! "s" = Some d'
    ∧ getMessage d' = Ok "adb"
    ∧ localOps w'
      = [mkElement "s" "1" false "31" "11" "12" "d"].
Proof.
  apply (addRight_right_of_anchor (holding 1 docAB) "s" "d" docAB []
           (setNextID (opA "s") "12") [opB "s"]).
  - reflexivity.
  - split.
    + cbn. repeat split; reflexivity.
    + cbn. apply NoDup_cons. split; [|apply NoDup_singleton].
      intros [E|H]%elem_of_cons; [discriminate E|by apply elem_of_nil in H].
    + reflexivity.
  - by vm_compute.
  - reflexivity.
  - cbn. left. reflexivity.
Defined.

End LocalInsert.

(** ** Edges of the merge and runs of local edits *)

Section Edges.
Import Scenario.

Implicit Types (w : Worker) (d : CRDT) (e op : Element) (l : list Element).

(** X16. A batch in which every operation is for a session the worker
    does not hold, or has an identifier the session's document already
    stores, is dropped: [ApplyIncomingOps] returns nil and the worker
    (documents, counters, buffer) is as before. *)
Theorem merge_drops_unknown_and_known w (ops : list Element) :
  Forall (skipped w) ops → ApplyIncomingOps w ops = Ok (w, ErrNil).
Proof.
  intros H. unfold ApplyIncomingOps. by rewrite (all_skipped _ _ H).
Qed.

Lemma merge_drops_unknown_and_known_witness :
  ApplyIncomingOps (holding 1 docA) [opA "s"; opA "t"]
  = Ok (holding 1 docA, ErrNil).
Proof.
  apply (merge_drops_unknown_and_known (holding 1 docA) [opA "s"; opA "t"]).
  apply Forall_cons. split; [vm_compute; eauto|].
  apply Forall_cons. split; [by vm_compute|constructor].
Defined.

(** X17. An operation that reaches a worker before the element it
    names as reference makes the merge crash: when the session's
    document has elements, the operation is new, and its reference is
    neither stored nor the sentinel, [ApplyIncomingOps] panics on the
    nil reference, whatever follows in the batch. *)
Theorem merge_gap_panics w op d (rest : list Element) :
  crdt w !! SessionID op = Some d → Elements d ≠ ∅ →
  Elements d !! ID op = None → PrevID op ≠ INITIAL_ID →
  Elements d !! PrevID op = None →
  ApplyIncomingOps w (op :: rest) = Panic.
Proof.
  intros Hw Hne Hfresh Hsent Href. unfold ApplyIncomingOps. cbn.
  unfold applyIncomingOp. rewrite Hw, Hfresh.
  unfold addToCRDT, firstCRDTEntry. rewrite bool_decide_eq_false_2.
  - unfold replacingFirstOp. rewrite bool_decide_eq_false_2 by done. cbn.
    unfold normalInsert, samePlaceInsertCheck. by rewrite Href.
  - intros Hs. apply Hne, map_size_empty_iff. lia.
Qed.

Lemma merge_gap_panics_witness :
  ApplyIncomingOps (holding 1 docA) (opU :: [opB "s"]) = Panic.
Proof.
  apply (merge_gap_panics (holding 1 docA) opU docA [opB "s"]).
  - reflexivity.
  - intros E. apply (f_equal (λ m : gmap string Element, m !! "11")) in E.
    discriminate E.
  - reflexivity.
  - by vm_compute.
  - reflexivity.
Defined.

Lemma addToCRDT_keeps_chain w e d l w' d' :
  chained d l → complete d l → Elements d !! ID e = None → ID e ≠ "" →
  (Elements d = ∅ → NextID e = "") →
  addToCRDT w e d = Ok (w', d') →
  ∃ l', chained d' l' ∧ complete d' l'.
Proof.
  intros Hch Hco Hfresh Hne Hnx Ha.
  apply addToCRDT_Ok_inv in Ha as [(Hemp & H)|[(_ & _ & f & Hf & H)|
    (_ & _ & p & q & _ & Hq & H)]].
  - exists [e]. destruct (chained_first_entry w e d l Hch Hemp Hne (Hnx Hemp))
      as [Hc1 Hc2]. rewrite <- H in Hc1, Hc2. cbn in Hc1, Hc2. eauto.
  - destruct (chained_sentinel w e d l f Hch Hfresh Hne Hf) as (l2 & _ & Hc1 & Hc2).
    rewrite <- H in Hc1, Hc2. cbn in Hc1, Hc2. eauto.
  - assert (p ∈ ID <$> l) as Hin by (apply Hco; eauto).
    destruct (seg_lookup_id _ _ _ _ _ (chained_seg _ _ Hch) Hin)
      as (q' & Hq' & Hidq & Hlq).
    rewrite Hq in Hlq. injection Hlq as <-. subst p.
    apply list_elem_of_split in Hq' as (l1 & l2 & ->).
    destruct (chained_splice_on w e d l1 q l2 Hch Hfresh Hne) as [Hc1 Hc2].
    rewrite <- H in Hc1, Hc2. cbn in Hc1, Hc2. eauto.
Qed.

Lemma local_edits_chain s cmds : ∀ w d l w',
  crdt w !! s = Some d → chained d l → complete d l →
  localEdits w s cmds = Ok w' → mintedFresh w s cmds →
  ∃ d' l', crdt w' !! s = Some d' ∧ chained d' l' ∧ complete d' l'.
Proof.
  induction cmds as [|[prevID content] cmds IH]; intros w d l w' Hw Hch Hco; cbn.
  - intros [= <-] _. eauto.
  - rewrite Hw. unfold addRight at 1 2. rewrite Hw.
    destruct (prevIDExists w prevID s) eqn:Hex; cbn.
    + match goal with |- context [addToCRDT w ?x d] => set (e := x) end.
      destruct (addToCRDT w e d) as [[w1 d1]| |] eqn:Ha; [|done..]. cbn.
      intros Hrun [Hfresh Hrest]. specialize (Hfresh eq_refl).
      destruct (addToCRDT_keeps_chain w e d l w1 d1 Hch Hco Hfresh
                  (mintOpID_nonempty _ _) (λ _, eq_refl) Ha) as (l1 & Hc1 & Hco1).
      eapply (IH (storeCRDT w1 s d1) d1 l1); [|done..].
      cbn. by rewrite lookup_insert_eq.
    + intros Hrun [_ Hrest]. by eapply IH.
Qed.

(** X18. A session starts from a document whose walk ends and visits
    every stored element (a new session, for one). After any series of
    [addRight] calls that return, each minting an identifier new to the
    document, the walk of the session's document still ends and visits
    every stored element once: [getMessage] returns the text and does
    not hang. *)
Theorem local_edits_keep_walk s cmds w d l w' :
  crdt w !! s = Some d → chained d l → complete d l →
  localEdits w s cmds = Ok w' → mintedFresh w s cmds →
  ∃ d' l', crdt w' !! s = Some d' ∧ chained d' l' ∧ complete d' l'
           ∧ getMessage d' = Ok (concatText l').
Proof.
  intros Hw Hch Hco Hrun Hfresh.
  destruct (local_edits_chain s cmds w d l w' Hw Hch Hco Hrun Hfresh)
    as (d' & l' & H1 & H2 & H3).
  exists d', l'. split; [done|]. split; [done|]. split; [done|].
  by apply chained_getMessage.
Qed.

Lemma local_edits_keep_walk_witness :
  ∃ w' d' l',
    localEdits (newSession (initWorker 1) "s") "s"
      [(INITIAL_ID, "a"); ("11", "b"); ("11", "c")] = Ok w'
    ∧ crdt w' !! "s" = Some d' ∧ chained d' l' ∧ complete d' l'
    ∧ getMessage d' = Ok (concatText l').
Proof.
  eexists.
  assert (localEdits (newSession (initWorker 1) "s") "s"
            [(INITIAL_ID, "a"); ("11", "b"); ("11", "c")] = Ok _)
    as Hrun by (vm_compute; reflexivity).
  assert (chained newCRDT []) as Hch
    by (split; [reflexivity|constructor|reflexivity]).
  assert (complete newCRDT []) as Hco.
  { intros k [v Hk]. cbn in Hk. by rewrite lookup_empty in Hk. }
  assert (mintedFresh (newSession (initWorker 1) "s") "s"
            [(INITIAL_ID, "a"); ("11", "b"); ("11", "c")]) as Hfresh.
  { vm_compute. repeat split; intros; reflexivity. }
  destruct (local_edits_keep_walk "s" _ (newSession (initWorker 1) "s")
              newCRDT [] _ eq_refl Hch Hco Hrun Hfresh)
    as (d' & l' & H1 & H2 & H3 & H4).
  exists d', l'. split; [exact Hrun|].
  exact (conj H1 (conj H2 (conj H3 H4))).
Defined.

End Edges.
